(** * Ranked-choice tabulation of stl_book_club_v2

    Shallow embedding of [calculate_ranked_choice_winner]
    (src/stl_book_club_v2/app.py, lines 164-318).

    Modelling choices:
    - book identities and voter names are [string]s;
    - the ballots map [votes : Dict[str, List[str]]] is an association list
      of (voter, ranking) pairs in dict order; the engine only uses
      [votes.values()] and [len(votes)];
    - Python dicts built by the engine ([vote_counts], [next_choice_counts])
      are association lists in insertion order;
    - the set [active_book_ids] is a list without duplicates in the set's
      iteration order.  A Python set of strings iterates in an order fixed by
      the string hashes (randomised per interpreter process) and the
      insertion history; it is the parameter [set_iter] applied to the
      insertion sequence.  [set.remove] keeps the relative order of the
      other elements;
    - [majority_threshold = total_votes / 2] is true division; for vote
      counts it is exact, and is modelled in [Q];
    - every Python exception the engine could raise (IndexError, KeyError,
      ValueError of [min] on an empty sequence) is [None]; so is running out
      of the fuel that bounds the [while] loop. *)

From Stdlib Require Import Ascii String List ListDec Bool Arith Lia ZArith QArith.
Import ListNotations.
Open Scope nat_scope.

(** ** Data model *)

Record Book := mkBook {
  title : string;
  author : string;
  description : string;
  genre : string;
  page_count : nat;
  id : string
}.

(** [votes]: voter name -> ranked list of book ids, in dict order. *)
Definition Votes := list (string * list string).

(** One element of the returned list of dicts.  A key that the source
    leaves out of the dict ('winner' or 'majority_win') is [None]. *)
Record Round := mkRound {
  round_number : nat;
  vote_counts : list (string * nat);
  active_books : nat;
  eliminated : option string;
  winner : option string;
  majority_win : option bool
}.

(** ** Python helpers *)

(** [x in l] for a list or set of strings. *)
Definition mem (x : string) (l : list string) : bool :=
  existsb (String.eqb x) l.

(** Truthiness of a string: [if s:] is false exactly for [""]. *)
Definition truthy (s : string) : bool := negb (String.eqb s ""%string).

(** [min(values)]; [None] is the ValueError of an empty sequence. *)
Definition py_min (l : list nat) : option nat :=
  match l with
  | [] => None
  | x :: r => Some (fold_left Nat.min r x)
  end.

(** [d[k] += 1] on a dict that has the key [k]. *)
Definition incr (k : string) (d : list (string * nat)) : list (string * nat) :=
  map (fun '(k', c) => if String.eqb k' k then (k', S c) else (k', c)) d.

(** [active.remove(x)]; [None] is the KeyError of a missing element. *)
Definition set_remove (x : string) (s : list string) : option (list string) :=
  if mem x s then Some (filter (fun y => negb (String.eqb y x)) s) else None.

(** ** The vote counter (lines 186-199) *)

(** The first entry of a ranking that is still active. *)
Fixpoint first_active (active : list string) (ranked : list string) : option string :=
  match ranked with
  | [] => None
  | b :: r => if mem b active then Some b else first_active active r
  end.

Definition count_votes (votes : Votes) (active : list string) : list (string * nat) :=
  fold_left
    (fun d ranked =>
       match first_active active ranked with
       | Some b => incr b d
       | None => d
       end)
    (map snd votes)
    (map (fun b => (b, 0)) active).

(** ** The majority check (lines 201-209) *)

Definition majority_threshold (total_votes : nat) : Q :=
  (inject_Z (Z.of_nat total_votes) / 2)%Q.

(** [count > majority_threshold]. *)
Definition exceeds (count total_votes : nat) : bool :=
  negb (Qle_bool (inject_Z (Z.of_nat count)) (majority_threshold total_votes)).

(** The [for ... break] loop: first key, in dict order, above the threshold. *)
Fixpoint find_majority (total_votes : nat) (d : list (string * nat)) : option string :=
  match d with
  | [] => None
  | (b, c) :: r => if exceeds c total_votes then Some b else find_majority total_votes r
  end.

(** [if majority_winner:] -- [None] and [""] are both falsy. *)
Definition declared_majority (total_votes : nat) (d : list (string * nat)) : option string :=
  match find_majority total_votes d with
  | Some w => if truthy w then Some w else None
  | None => None
  end.

(** ** The tie resolver (lines 232-271) *)

(** [[book_id for book_id, count in d.items() if count == m]] *)
Definition keys_with (m : nat) (d : list (string * nat)) : list string :=
  map fst (filter (fun '(_, c) => Nat.eqb c m) d).

(** Index of the first active entry of a ranking; [None] is [-1]. *)
Fixpoint first_active_idx (active : list string) (ranked : list string) : option nat :=
  match ranked with
  | [] => None
  | b :: r =>
      if mem b active then Some 0
      else option_map S (first_active_idx active r)
  end.

(** [for idx in range(i, len(ranked)): if ranked[idx] in tied: ... break]:
    the first entry of [ranked] from index [i] on that is tied. *)
Definition scan_tied (tied : list string) (i : nat) (ranked : list string) : option string :=
  find (fun b => mem b tied) (skipn i ranked).

(** The contribution of one ballot to [next_choice_counts]. *)
Definition next_choice_ballot (active tied : list string) (ranked : list string)
    (ncc : list (string * nat)) : list (string * nat) :=
  match first_active_idx active ranked with
  | None => ncc
  | Some i =>
      if orb (Nat.eqb (length tied) (length active))
             (mem (nth i ranked ""%string) tied) then
        match scan_tied tied (S i) ranked with
        | Some b => incr b ncc
        | None => ncc
        end
      else
        match scan_tied tied (S i) ranked with
        | Some b => incr b ncc
        | None => ncc
        end
  end.

Definition next_choice_counts (votes : Votes) (active tied : list string) : list (string * nat) :=
  fold_left (fun ncc ranked => next_choice_ballot active tied ranked ncc)
    (map snd votes) (map (fun b => (b, 0)) tied).

(** Lines 240-271, run when [len(books_with_min_votes) > 1]. *)
Definition tie_break (votes : Votes) (active tied : list string) : list string :=
  let ncc := next_choice_counts votes active tied in
  if existsb (fun '(_, c) => Nat.ltb 0 c) ncc then
    match py_min (map snd ncc) with
    | Some m => keys_with m ncc
    | None => tied (* unreachable: [ncc] has a positive entry *)
    end
  else tied.

(** ** One iteration of the [while] loop (lines 186-300) *)

Inductive step_result :=
| Continue (active : list string) (rounds : list Round)
| Break (active : list string) (rounds : list Round).

Definition set_eliminated (rd : Round) (e : string) : Round :=
  mkRound (round_number rd) (vote_counts rd) (active_books rd) (Some e)
    (winner rd) (majority_win rd).

(** [books_with_min_votes] after the optional tie-break. *)
Definition tie_set (votes : Votes) (active : list string) (d : list (string * nat))
    : option (list string) :=
  match py_min (map snd d) with
  | None => None
  | Some min_votes =>
      let bw := keys_with min_votes d in
      Some (if Nat.ltb 1 (length bw) then tie_break votes active bw else bw)
  end.

Definition step (votes : Votes) (active : list string) (rounds : list Round)
    : option step_result :=
  let d := count_votes votes active in
  let total_votes := length votes in
  match declared_majority total_votes d with
  | Some w =>
      Some (Break active
              (rounds ++ [mkRound (S (length rounds)) d (length active) None
                            (Some w) (Some true)]))
  | None =>
      let round_data := mkRound (S (length rounds)) d (length active) None None None in
      match tie_set votes active d with
      | None => None
      | Some bw =>
          if Nat.eqb (length bw) (length active) then
            match nth_error bw 0, nth_error bw 1 with
            | Some e, Some w =>
                match set_remove e active with
                | None => None
                | Some _ =>
                    let rounds1 := rounds ++ [set_eliminated round_data e] in
                    Some (Break []
                            (rounds1 ++ [mkRound (S (length rounds1)) [(w, total_votes)]
                                           1 None (Some w) None]))
                end
            | _, _ => None
            end
          else
            match nth_error bw 0 with
            | None => None
            | Some e =>
                match set_remove e active with
                | None => None
                | Some active' => Some (Continue active' (rounds ++ [set_eliminated round_data e]))
                end
            end
      end
  end.

(** [while len(active_book_ids) > 1], bounded by [fuel] iterations. *)
Fixpoint loop (fuel : nat) (votes : Votes) (active : list string) (rounds : list Round)
    : option (list string * list Round) :=
  if Nat.ltb 1 (length active) then
    match fuel with
    | 0 => None
    | S fuel' =>
        match step votes active rounds with
        | None => None
        | Some (Break a r) => Some (a, r)
        | Some (Continue a r) => loop fuel' votes a r
        end
    end
  else Some (active, rounds).

(** Lines 302-318. *)
Definition finish (votes : Votes) (active : list string) (rounds : list Round) : list Round :=
  match active with
  | [w] => rounds ++ [mkRound (S (length rounds)) [(w, length votes)] 1 None (Some w) None]
  | _ => rounds
  end.

Definition voted_ids (votes : Votes) : list string := concat (map snd votes).

(** The insertion sequence of the set comprehension on line 178. *)
Definition active_insertions (votes : Votes) (books : list Book) : list string :=
  filter (fun i => mem i (voted_ids votes)) (map id books).

Definition calculate_ranked_choice_winner (set_iter : list string -> list string)
    (votes : Votes) (books : list Book) : option (list Round) :=
  match votes, books with
  | [], _ | _, [] => Some []
  | _, _ =>
      match set_iter (active_insertions votes books) with
      | [] => Some []
      | active_book_ids =>
          match loop (length active_book_ids) votes active_book_ids [] with
          | None => None
          | Some (a, rounds) => Some (finish votes a rounds)
          end
      end
  end.

(** A valid iteration order of a Python set built from a sequence: the
    distinct elements of the sequence, each once. *)
Definition set_iter_ok (set_iter : list string -> list string) : Prop :=
  forall l, NoDup (set_iter l) /\ (forall x, In x (set_iter l) <-> In x l).

(** Iteration order equal to first-insertion order (as for a set whose
    strings hash into distinct slots in insertion order). *)
Fixpoint dedup (l : list string) : list string :=
  match l with
  | [] => []
  | x :: r => x :: filter (fun y => negb (String.eqb y x)) (dedup r)
  end.

Definition bk (i : string) : Book := mkBook i "" "" "" 1 i.


(** The number of ballots a choice function credits to [b]. *)
Definition tally (g : list string -> option string) (bs : list (list string)) (b : string) : nat :=
  length (filter (fun r => match g r with Some c => String.eqb c b | None => false end) bs).

(** ** The tie-break as the spec words it (section 4.4, step 3)

    A second definition of lines 238-271, written from the spec rather than
    from the source, to be compared with [tie_break]: every ballot with an
    active entry credits the first entry after its first active entry that
    is in the tie set, whatever that first active entry is; the tie set
    becomes its members with the fewest credits when some member has a
    credit, and stays as it is otherwise. *)
Definition spec_next_credit (active tied : list string) (ranked : list string) : option string :=
  match first_active_idx active ranked with
  | None => None
  | Some i => find (fun b => mem b tied) (skipn (S i) ranked)
  end.

Definition spec_tie_break (votes : Votes) (active tied : list string) : list string :=
  let credits := tally (spec_next_credit active tied) (map snd votes) in
  if existsb (fun b => Nat.ltb 0 (credits b)) tied then
    filter (fun b => forallb (fun c => Nat.leb (credits b) (credits c)) tied) tied
  else tied.

(** ** The three outcomes of a loop iteration *)

Definition count_round (votes : Votes) (active : list string) (rounds : list Round)
    (e : option string) (w : option string) (mw : option bool) : Round :=
  mkRound (S (length rounds)) (count_votes votes active) (length active) e w mw.

Definition winner_round (votes : Votes) (rounds : list Round) (w : string) : Round :=
  mkRound (S (length rounds)) [(w, length votes)] 1 None (Some w) None.

Inductive step_shape (votes : Votes) (active : list string) (rounds : list Round)
    : step_result -> Prop :=
| shape_majority w :
    declared_majority (length votes) (count_votes votes active) = Some w ->
    step_shape votes active rounds
      (Break active (rounds ++ [count_round votes active rounds None (Some w) (Some true)]))
| shape_total_tie e w rest :
    declared_majority (length votes) (count_votes votes active) = None ->
    tie_set votes active (count_votes votes active) = Some (e :: w :: rest) ->
    length (e :: w :: rest) = length active ->
    In e active -> In w active ->
    step_shape votes active rounds
      (Break [] (rounds ++ [count_round votes active rounds (Some e) None None;
                            winner_round votes (rounds ++ [count_round votes active rounds (Some e) None None]) w]))
| shape_eliminate e rest :
    declared_majority (length votes) (count_votes votes active) = None ->
    tie_set votes active (count_votes votes active) = Some (e :: rest) ->
    length (e :: rest) <> length active ->
    In e active ->
    step_shape votes active rounds
      (Continue (filter (fun y => negb (String.eqb y e)) active)
                (rounds ++ [count_round votes active rounds (Some e) None None])).


(** ** Properties of a round sequence *)

(** Some ballot ranks some book of the candidate list. *)
Definition references_known (votes : Votes) (books : list Book) : Prop :=
  exists voter ranked x, In (voter, ranked) votes /\ In x ranked /\ In x (map id books).

Definition sum_counts (r : Round) : nat := list_sum (map snd (vote_counts r)).

(** Consecutive rounds where the first records an elimination and the
    second has exactly one active book fewer. *)
Definition strict_pair (r1 r2 : Round) : Prop :=
  eliminated r1 <> None /\ active_books r2 = active_books r1 - 1
  /\ active_books r2 < active_books r1.

Definition chain (L : list Round) : Prop :=
  forall i r1 r2, nth_error L i = Some r1 -> nth_error L (S i) = Some r2 -> strict_pair r1 r2.

Definition round_total_ok (votes : Votes) (r : Round) : Prop :=
  sum_counts r <= length votes /\
  ((forall voter ranked, In (voter, ranked) votes ->
      exists x, In x ranked /\ In x (map fst (vote_counts r))) -> sum_counts r = length votes).

Definition adjacent_ok (L : list Round) : Prop :=
  forall i r1 r2, nth_error L i = Some r1 -> nth_error L (S i) = Some r2 ->
    active_books r2 < active_books r1 /\ eliminated r1 <> None /\
    (active_books r2 = active_books r1 - 1
     \/ (S (S i) = length L /\ active_books r2 = 1 /\ winner r2 <> None)).

Definition sizes_inv (A : list string) (R : list Round) : Prop :=
  A <> [] /\ chain R /\
  (forall r, nth_error R (pred (length R)) = Some r ->
     eliminated r <> None /\ active_books r = S (length A)).

(** ** Concrete inputs *)

Definition scenario_A : Votes :=
  [("a1", ["X"; "Y"; "Z"]); ("a2", ["X"; "Y"; "Z"]);
   ("b1", ["Y"; "X"; "Z"]); ("b2", ["Y"; "X"; "Z"]);
   ("c1", ["Z"; "X"; "Y"])]%string.

Definition scenario_B : Votes :=
  [("a1", ["A"; "B"]); ("a2", ["A"; "B"]); ("a3", ["A"; "B"]);
   ("b1", ["B"; "A"]); ("b2", ["B"; "A"])]%string.

Definition scenario_C : Votes := [("a1", ["A"; "B"]); ("b1", ["B"; "A"])]%string.

(** Three candidates tied in every respect. *)
Definition cyclic_3 : Votes :=
  [("v1", ["A"; "B"; "C"]); ("v2", ["B"; "C"; "A"]); ("v3", ["C"; "A"; "B"])]%string.

(** A book whose identity is the empty string holds a majority. *)
Definition empty_id_majority : Votes :=
  [("v1", [""]); ("v2", [""]); ("v3", ["b"])]%string.

Definition cyclic_3_round1 : Round :=
  mkRound 1 [("A"%string, 1); ("B"%string, 1); ("C"%string, 1)] 3 (Some "A"%string) None None.

Definition cyclic_3_round2 : Round := mkRound 2 [("B"%string, 3)] 1 None (Some "B"%string) None.

(** ** Nomination and ballot storage (lines 137-162, 680-727) *)

(** [add_book]: the returned flag and the new nomination list. *)
Definition add_book (books : list Book) (book : Book) : bool * list Book :=
  if existsb (fun existing_book => String.eqb (id existing_book) (id book)) books
  then (false, books)
  else (true, books ++ [book]).

(** [remove_book]: the new nomination list and ballots. *)
Definition remove_book (books : list Book) (votes : Votes) (book_id : string) : list Book * Votes :=
  (filter (fun b => negb (String.eqb (id b) book_id)) books,
   map (fun '(voter, ranked) => (voter, filter (fun b_id => negb (String.eqb b_id book_id)) ranked))
       votes).

(** [d[k] = v]: replaces the value in place, or appends a new key. *)
Fixpoint dict_set {V} (k : string) (v : V) (d : list (string * V)) : list (string * V) :=
  match d with
  | [] => [(k, v)]
  | (k', v') :: r => if String.eqb k' k then (k, v) :: r else (k', v') :: dict_set k v r
  end.

(** [d.get(k)]. *)
Fixpoint dict_get {V} (k : string) (d : list (string * V)) : option V :=
  match d with
  | [] => None
  | (k', v') :: r => if String.eqb k' k then Some v' else dict_get k r
  end.

(** [{f"{book.title} by {book.author}": book.id for book in books}] *)
Definition book_options (books : list Book) : list (string * string) :=
  fold_left (fun d b => dict_set (title b ++ " by " ++ author b)%string (id b) d) books [].

(** [[book_options[choice] for each selected choice]]; [None] is a KeyError. *)
Fixpoint rankings_of (options : list (string * string)) (choices : list string)
    : option (list string) :=
  match choices with
  | [] => Some []
  | c :: r =>
      match dict_get c options, rankings_of options r with
      | Some b, Some bs => Some (b :: bs)
      | _, _ => None
      end
  end.

(** "Submit Vote": rejected ([None], "Please rank each book only once!")
    when [len(rankings) != len(set(rankings))]. *)
Definition submit_vote (votes : Votes) (voter_name : string) (rankings : list string) : option Votes :=
  if Nat.eqb (length rankings) (length (dedup rankings))
  then Some (dict_set voter_name rankings votes)
  else None.

(** "Remove My Vote", offered only when [voter_name in votes]. *)
Definition remove_vote (votes : Votes) (voter_name : string) : Votes :=
  if existsb (fun '(k, _) => String.eqb k voter_name) votes
  then filter (fun '(k, _) => negb (String.eqb k voter_name)) votes
  else votes.

Record AppState := mkAppState { st_books : list Book; st_votes : Votes }.

Inductive AppOp :=
| OpAddBook (b : Book)
| OpRemoveBook (book_id : string)
| OpSubmitVote (voter_name : string) (choices : list string)
| OpRemoveVote (voter_name : string).

(** One user action on the session state; [None] is an uncaught error. *)
Definition app_step (s : AppState) (op : AppOp) : option AppState :=
  match op with
  | OpAddBook b => Some (mkAppState (snd (add_book (st_books s) b)) (st_votes s))
  | OpRemoveBook i =>
      let '(bs, vs) := remove_book (st_books s) (st_votes s) i in Some (mkAppState bs vs)
  | OpSubmitVote v choices =>
      match rankings_of (book_options (st_books s)) choices with
      | None => None
      | Some rankings =>
          match submit_vote (st_votes s) v rankings with
          | Some vs => Some (mkAppState (st_books s) vs)
          | None => Some s
          end
      end
  | OpRemoveVote v => Some (mkAppState (st_books s) (remove_vote (st_votes s) v))
  end.

(** Unique book ids, unique voters, and ballots without repeats that rank
    only nominated books. *)
Definition app_wf (s : AppState) : Prop :=
  NoDup (map id (st_books s)) /\ NoDup (map fst (st_votes s)) /\
  forall voter ranked, In (voter, ranked) (st_votes s) ->
    NoDup ranked /\ incl ranked (map id (st_books s)).

(** ** Reading the rounds back (lines 344-349, display_voting_results) *)

(** [for round_data in rounds: if 'winner' in round_data: ... break] *)
Fixpoint first_winner_round (rounds : list Round) : option Round :=
  match rounds with
  | [] => None
  | r :: rest => match winner r with Some _ => Some r | None => first_winner_round rest end
  end.

(** The book ids a round mentions: its [vote_counts] keys, its
    [eliminated] book and its [winner]. *)
Definition opt_list (o : option string) : list string :=
  match o with Some x => [x] | None => [] end.

Definition round_names (r : Round) : list string :=
  map fst (vote_counts r) ++ opt_list (eliminated r) ++ opt_list (winner r).

(** No book eliminated in a round is mentioned by a later round. *)
Definition never_returns (L : list Round) : Prop :=
  forall i j r1 r2 e, i < j -> nth_error L i = Some r1 -> nth_error L j = Some r2 ->
    eliminated r1 = Some e -> ~ In e (round_names r2).

(** The book eliminated in a round has the fewest votes of that round. *)
Definition elim_fewest (r : Round) : Prop :=
  forall e, eliminated r = Some e ->
    exists c, In (e, c) (vote_counts r) /\ forall b c', In (b, c') (vote_counts r) -> c <= c'.

(** A round flagged [majority_win] names a winner holding more than half of
    the ballots. *)
Definition majority_ok (total : nat) (r : Round) : Prop :=
  majority_win r = Some true ->
  exists w c, winner r = Some w /\ In (w, c) (vote_counts r) /\ total < 2 * c.

Definition numbered (L : list Round) : Prop :=
  forall i r, nth_error L i = Some r -> round_number r = S i.

(** ** Lemmas on the Python helpers *)

Lemma mem_In x l : mem x l = true <-> In x l.
Proof.
  unfold mem; rewrite existsb_exists; split.
  - intros [y [Hy Heq]]; apply String.eqb_eq in Heq; subst; exact Hy.
  - intros H; exists x; split; [exact H | apply String.eqb_refl].
Qed.

Lemma mem_false x l : mem x l = false <-> ~ In x l.
Proof.
  rewrite <- mem_In; destruct (mem x l); split; congruence.
Qed.

Lemma exceeds_iff c t : exceeds c t = true <-> t < 2 * c.
Proof.
  unfold exceeds, majority_threshold.
  rewrite negb_true_iff.
  split; intro H.
  - destruct (Nat.lt_ge_cases t (2 * c)) as [Hlt | Hge]; [exact Hlt |].
    exfalso. assert (Hq : Qle_bool (inject_Z (Z.of_nat c)) (inject_Z (Z.of_nat t) / 2) = true).
    { apply Qle_bool_iff. unfold Qle, Qdiv, Qmult, Qinv; simpl. lia. }
    congruence.
  - destruct (Qle_bool _ _) eqn:Hq; [| reflexivity].
    apply Qle_bool_iff in Hq. unfold Qle, Qdiv, Qmult, Qinv in Hq; simpl in Hq. lia.
Qed.


Lemma incr_map k (K : list string) (n : string -> nat) :
  incr k (map (fun b => (b, n b)) K)
  = map (fun b => (b, if String.eqb b k then S (n b) else n b)) K.
Proof.
  unfold incr; rewrite map_map; apply map_ext; intro b.
  destruct (String.eqb b k); reflexivity.
Qed.

Lemma fold_tally g bs (K : list string) (n : string -> nat) :
  fold_left (fun d r => match g r with Some b => incr b d | None => d end) bs
    (map (fun b => (b, n b)) K)
  = map (fun b => (b, n b + tally g bs b)) K.
Proof.
  revert n; induction bs as [| r bs IH]; intro n; simpl.
  - apply map_ext; intro b; unfold tally; simpl; f_equal; lia.
  - destruct (g r) as [c |] eqn:Hg.
    + rewrite incr_map, IH. apply map_ext; intro b. unfold tally; simpl.
      rewrite Hg. destruct (String.eqb b c) eqn:E1, (String.eqb c b) eqn:E2;
        try (apply String.eqb_eq in E1); try (apply String.eqb_eq in E2); subst;
        try rewrite String.eqb_refl in *; try discriminate; simpl; f_equal; lia.
    + rewrite IH. apply map_ext; intro b. unfold tally; simpl. rewrite Hg. reflexivity.
Qed.

Lemma count_votes_eq votes active :
  count_votes votes active
  = map (fun b => (b, tally (first_active active) (map snd votes) b)) active.
Proof.
  unfold count_votes.
  change (map (fun b => (b, 0)) active) with (map (fun b => (b, (fun _ => 0) b)) active).
  rewrite fold_tally. reflexivity.
Qed.

Lemma first_active_In active r b : first_active active r = Some b -> In b active /\ In b r.
Proof.
  induction r as [| x r IH]; simpl; [discriminate |].
  destruct (mem x active) eqn:Hm.
  - intro H; injection H as <-; apply mem_In in Hm; auto.
  - intro H; destruct (IH H); auto.
Qed.

Lemma first_active_None active r : first_active active r = None -> forall x, In x r -> ~ In x active.
Proof.
  induction r as [| y r IH]; simpl; [tauto |].
  destruct (mem y active) eqn:Hm; [discriminate |].
  intros H x [<- | Hx]; [apply mem_false; exact Hm | exact (IH H x Hx)].
Qed.

Lemma map_fst_count_votes votes active : map fst (count_votes votes active) = active.
Proof. rewrite count_votes_eq, map_map; apply map_id. Qed.

Lemma keys_with_map m (K : list string) (f : string -> nat) :
  keys_with m (map (fun b => (b, f b)) K) = filter (fun b => Nat.eqb (f b) m) K.
Proof.
  unfold keys_with; induction K as [| b K IH]; simpl; [reflexivity |].
  destruct (Nat.eqb (f b) m); simpl; rewrite IH; reflexivity.
Qed.

Lemma fold_min_le r x : fold_left Nat.min r x <= x /\ forall y, In y r -> fold_left Nat.min r x <= y.
Proof.
  revert x; induction r as [| z r IH]; intro x; simpl; [split; [lia | tauto] |].
  destruct (IH (Nat.min x z)) as [H1 H2]; split; [lia |].
  intros y [<- | Hy]; [lia | auto].
Qed.

Lemma fold_min_In r x : fold_left Nat.min r x = x \/ In (fold_left Nat.min r x) r.
Proof.
  revert x; induction r as [| z r IH]; intro x; simpl; [auto |].
  destruct (IH (Nat.min x z)) as [H | H]; [| auto].
  rewrite H; destruct (Nat.min_dec x z) as [E | E]; rewrite E; auto.
Qed.

Lemma py_min_spec l m : py_min l = Some m -> In m l /\ forall y, In y l -> m <= y.
Proof.
  destruct l as [| x r]; simpl; [discriminate |]; intro H; injection H as <-.
  destruct (fold_min_le r x) as [H1 H2]; split.
  - destruct (fold_min_In r x) as [E | E]; [left; auto | right; exact E].
  - intros y [<- | Hy]; auto.
Qed.

Lemma py_min_Some l : l <> [] -> exists m, py_min l = Some m.
Proof. destruct l; simpl; [congruence | eauto]. Qed.

Lemma length_remove_NoDup e (A : list string) :
  NoDup A -> In e A -> length (filter (fun y => negb (String.eqb y e)) A) = length A - 1.
Proof.
  induction A as [| x A IH]; simpl; [tauto |]; intros Hnd Hin.
  inversion Hnd as [| ? ? Hx Hnd']; subst.
  destruct (String.eqb x e) eqn:E; simpl.
  - apply String.eqb_eq in E; subst.
    rewrite forallb_filter_id; [lia |].
    apply forallb_forall; intros y Hy; destruct (String.eqb y e) eqn:E'; [| reflexivity].
    apply String.eqb_eq in E'; subst; contradiction.
  - destruct Hin as [-> | Hin]; [rewrite String.eqb_refl in E; discriminate |].
    rewrite (IH Hnd' Hin). destruct A; [contradiction | simpl; lia].
Qed.

Lemma set_remove_In e A : In e A -> set_remove e A = Some (filter (fun y => negb (String.eqb y e)) A).
Proof. intro H; unfold set_remove; apply mem_In in H; rewrite H; reflexivity. Qed.

(** The source's two branches credit the same entry. *)
Lemma next_choice_ballot_eq active tied ranked ncc :
  next_choice_ballot active tied ranked ncc
  = match spec_next_credit active tied ranked with Some b => incr b ncc | None => ncc end.
Proof.
  unfold next_choice_ballot, spec_next_credit, scan_tied.
  destruct (first_active_idx active ranked); [| reflexivity].
  destruct (_ || _); reflexivity.
Qed.

Lemma next_choice_counts_eq votes active tied :
  next_choice_counts votes active tied
  = map (fun b => (b, tally (spec_next_credit active tied) (map snd votes) b)) tied.
Proof.
  unfold next_choice_counts.
  transitivity (fold_left (fun d r => match spec_next_credit active tied r with
                                       | Some b => incr b d | None => d end)
                  (map snd votes) (map (fun b => (b, 0)) tied)).
  { generalize (map (fun b => (b, 0)) tied).
    induction (map snd votes) as [| r bs IH]; intro d; simpl; [reflexivity |].
    rewrite next_choice_ballot_eq; apply IH. }
  change (map (fun b => (b, 0)) tied) with (map (fun b => (b, (fun _ => 0) b)) tied).
  rewrite fold_tally; reflexivity.
Qed.

Lemma existsb_pairs (K : list string) (f : string -> nat) :
  existsb (fun '(_, c) => Nat.ltb 0 c) (map (fun b => (b, f b)) K)
  = existsb (fun b => Nat.ltb 0 (f b)) K.
Proof. induction K as [| b K IH]; simpl; [reflexivity | rewrite IH; reflexivity]. Qed.

Lemma tie_break_eq votes active tied :
  tie_break votes active tied = spec_tie_break votes active tied.
Proof.
  unfold tie_break, spec_tie_break.
  rewrite next_choice_counts_eq, existsb_pairs.
  set (cr := tally (spec_next_credit active tied) (map snd votes)).
  destruct (existsb (fun b => Nat.ltb 0 (cr b)) tied) eqn:Hex; [| reflexivity].
  rewrite map_map.
  assert (Hne : tied <> []) by (destruct tied; [discriminate | congruence]).
  destruct (py_min_Some (map cr tied)) as [m Hm]; [destruct tied; simpl; congruence |].
  change (fun x : string => snd (x, cr x)) with cr.
  rewrite Hm, keys_with_map.
  destruct (py_min_spec _ _ Hm) as [Hin Hle].
  apply in_map_iff in Hin as [c0 [Hc0 Hc0in]].
  apply filter_ext_in; intros b Hb.
  destruct (Nat.eqb (cr b) m) eqn:E; symmetry.
  - apply Nat.eqb_eq in E; apply forallb_forall; intros c Hc.
    apply Nat.leb_le; rewrite E; apply Hle, in_map; exact Hc.
  - apply Bool.not_true_iff_false; intro Hf.
    rewrite forallb_forall in Hf; specialize (Hf c0 Hc0in); apply Nat.leb_le in Hf.
    assert (m <= cr b) by (apply Hle, in_map; exact Hb).
    apply Nat.eqb_neq in E; lia.
Qed.

Lemma fewest_nonempty (T : list string) (f : string -> nat) :
  T <> [] -> filter (fun b => forallb (fun c => Nat.leb (f b) (f c)) T) T <> [].
Proof.
  intro HT; destruct (py_min_Some (map f T)) as [m Hm]; [destruct T; simpl; congruence |].
  destruct (py_min_spec _ _ Hm) as [Hin Hle].
  apply in_map_iff in Hin as [b [Hb HbT]].
  intro Hnil; assert (Hf : In b (filter (fun b => forallb (fun c => Nat.leb (f b) (f c)) T) T)).
  { apply filter_In; split; [exact HbT |].
    apply forallb_forall; intros c Hc; apply Nat.leb_le; rewrite Hb; apply Hle, in_map, Hc. }
  rewrite Hnil in Hf; contradiction.
Qed.

Lemma spec_tie_break_shape votes active tied :
  tied <> [] -> NoDup tied ->
  let t := spec_tie_break votes active tied in t <> [] /\ incl t tied /\ NoDup t.
Proof.
  intros Hne Hnd; unfold spec_tie_break; simpl.
  destruct (existsb _ tied); [| split; [exact Hne | split; [apply incl_refl | exact Hnd]]].
  split; [apply fewest_nonempty, Hne |]; split.
  - intros x Hx; apply filter_In in Hx; tauto.
  - apply NoDup_filter, Hnd.
Qed.

Lemma tie_set_shape votes active :
  NoDup active -> active <> [] ->
  exists bw, tie_set votes active (count_votes votes active) = Some bw
             /\ bw <> [] /\ incl bw active /\ NoDup bw.
Proof.
  intros Hnd Hne; unfold tie_set; rewrite count_votes_eq, map_map; simpl.
  set (f := tally (first_active active) (map snd votes)).
  destruct (py_min_Some (map f active)) as [m Hm]; [destruct active; simpl; congruence |].
  rewrite Hm, keys_with_map.
  destruct (py_min_spec _ _ Hm) as [Hin _].
  apply in_map_iff in Hin as [a [Ha HaA]].
  assert (Hbw : filter (fun b => Nat.eqb (f b) m) active <> []).
  { intro Hnil; assert (Hf : In a (filter (fun b => Nat.eqb (f b) m) active))
      by (apply filter_In; split; [exact HaA | apply Nat.eqb_eq, Ha]).
    rewrite Hnil in Hf; contradiction. }
  assert (Hsub : incl (filter (fun b => Nat.eqb (f b) m) active) active)
    by (intros x Hx; apply filter_In in Hx; tauto).
  assert (Hnd' : NoDup (filter (fun b => Nat.eqb (f b) m) active)) by (apply NoDup_filter, Hnd).
  eexists; split; [reflexivity |].
  destruct (Nat.ltb 1 _); [| auto].
  rewrite tie_break_eq.
  destruct (spec_tie_break_shape votes active _ Hbw Hnd') as [H1 [H2 H3]].
  split; [exact H1 | split; [eapply incl_tran; eauto | exact H3]].
Qed.


Lemma step_cases votes active rounds :
  NoDup active -> 1 < length active ->
  exists res, step votes active rounds = Some res /\ step_shape votes active rounds res.
Proof.
  intros Hnd Hlen.
  assert (Hne : active <> []) by (destruct active; simpl in Hlen; [lia | congruence]).
  unfold step.
  destruct (declared_majority (length votes) (count_votes votes active)) as [w |] eqn:Hmaj.
  - eexists; split; [reflexivity | apply shape_majority; exact Hmaj].
  - destruct (tie_set_shape votes active Hnd Hne) as [bw [Hts [Hbne [Hsub Hbnd]]]].
    rewrite Hts.
    destruct bw as [| e rest]; [congruence |].
    assert (He : In e active) by (apply Hsub; left; reflexivity).
    destruct (Nat.eqb (length (e :: rest)) (length active)) eqn:Heq.
    + apply Nat.eqb_eq in Heq.
      destruct rest as [| w rest]; [simpl in Heq; lia |].
      assert (Hw : In w active) by (apply Hsub; right; left; reflexivity).
      cbn [nth_error]; rewrite (set_remove_In _ _ He).
      eexists; split; [reflexivity |].
      rewrite <- app_assoc; apply (shape_total_tie _ _ _ e w rest); assumption.
    + apply Nat.eqb_neq in Heq.
      cbn [nth_error]; rewrite (set_remove_In _ _ He).
      eexists; split; [reflexivity |].
      apply (shape_eliminate _ _ _ e rest); assumption.
Qed.

Lemma loop_preserves votes (P Q : list string -> list Round -> Prop) :
  (forall A R, P A R -> NoDup A -> length A <= 1 -> Q A R) ->
  (forall A R res, P A R -> NoDup A -> 1 < length A -> step_shape votes A R res ->
     match res with Continue A' R' => P A' R' | Break A' R' => Q A' R' end) ->
  forall fuel A R A' R', P A R -> NoDup A -> loop fuel votes A R = Some (A', R') -> Q A' R'.
Proof.
  intros Hexit Hstep fuel; induction fuel as [| fuel IH]; intros A R A' R' HP Hnd Hloop;
    simpl in Hloop.
  - destruct (Nat.ltb 1 (length A)) eqn:Hl; [discriminate |].
    injection Hloop as <- <-; apply Hexit; [exact HP | exact Hnd | apply Nat.ltb_ge, Hl].
  - destruct (Nat.ltb 1 (length A)) eqn:Hl.
    + apply Nat.ltb_lt in Hl.
      destruct (step_cases votes A R Hnd Hl) as [res [Hres Hsh]].
      rewrite Hres in Hloop.
      pose proof (Hstep A R res HP Hnd Hl Hsh) as Hn.
      destruct res as [A1 R1 | A1 R1].
      * inversion Hsh; subst.
        eapply IH; [exact Hn | apply NoDup_filter, Hnd | exact Hloop].
      * injection Hloop as <- <-; exact Hn.
    + injection Hloop as <- <-; apply Hexit; [exact HP | exact Hnd | apply Nat.ltb_ge, Hl].
Qed.

Lemma loop_some votes fuel :
  forall A R, NoDup A -> length A <= S fuel -> exists A' R', loop fuel votes A R = Some (A', R').
Proof.
  induction fuel as [| fuel IH]; intros A R Hnd Hlen; simpl.
  - destruct (Nat.ltb 1 (length A)) eqn:Hl; [apply Nat.ltb_lt in Hl; lia | eauto].
  - destruct (Nat.ltb 1 (length A)) eqn:Hl; [| eauto].
    apply Nat.ltb_lt in Hl.
    destruct (step_cases votes A R Hnd Hl) as [res [Hres Hsh]].
    rewrite Hres.
    inversion Hsh; subst; eauto.
    apply IH; [apply NoDup_filter, Hnd |].
    rewrite (length_remove_NoDup _ _ Hnd H2); lia.
Qed.

(** ** The entry point *)

Lemma dedup_In l x : In x (dedup l) <-> In x l.
Proof.
  induction l as [| y l IH]; simpl; [tauto |].
  rewrite filter_In, IH; split.
  - intros [-> | [H _]]; auto.
  - intros [-> | H]; [auto |].
    destruct (String.eqb x y) eqn:E; [apply String.eqb_eq in E; auto | right; split; auto].
Qed.

Lemma dedup_ok : set_iter_ok dedup.
Proof.
  intro l; split; [| apply dedup_In].
  induction l as [| y l IH]; simpl; constructor.
  - rewrite filter_In; intros [_ H]; rewrite String.eqb_refl in H; discriminate.
  - apply NoDup_filter, IH.
Qed.

Lemma rev_dedup_ok : set_iter_ok (fun l => rev (dedup l)).
Proof.
  intro l; destruct (dedup_ok l) as [H1 H2]; split.
  - apply NoDup_rev, H1.
  - intro x; rewrite <- in_rev; apply H2.
Qed.

Lemma set_iter_nil so l : set_iter_ok so -> so l = [] <-> l = [].
Proof.
  intro Hso; destruct (Hso l) as [_ Hin]; split; intro H.
  - destruct l as [| x l]; [reflexivity |].
    exfalso; assert (Hx : In x (so (x :: l))) by (apply Hin; left; reflexivity).
    rewrite H in Hx; contradiction.
  - destruct (so l) as [| x r] eqn:E; [reflexivity |].
    exfalso; assert (Hx : In x l) by (apply Hin; left; reflexivity).
    rewrite H in Hx; contradiction.
Qed.

Lemma calculate_empty so votes books :
  set_iter_ok so ->
  votes = [] \/ books = [] \/ active_insertions votes books = [] ->
  calculate_ranked_choice_winner so votes books = Some [].
Proof.
  intros Hso [-> | [-> | H]]; unfold calculate_ranked_choice_winner;
    [reflexivity | destruct votes; reflexivity |].
  apply (set_iter_nil so) in H; [| exact Hso].
  destruct votes, books; try reflexivity. rewrite H; reflexivity.
Qed.

Lemma calculate_run so votes books :
  set_iter_ok so -> votes <> [] -> books <> [] -> active_insertions votes books <> [] ->
  let A := so (active_insertions votes books) in
  NoDup A /\ A <> [] /\
  exists A' R', loop (length A) votes A [] = Some (A', R')
                /\ calculate_ranked_choice_winner so votes books = Some (finish votes A' R').
Proof.
  intros Hso Hv Hb Hai A.
  assert (HA : A <> []) by (unfold A; rewrite (set_iter_nil so _ Hso); exact Hai).
  assert (Hnd : NoDup A) by apply (proj1 (Hso _)).
  split; [exact Hnd | split; [exact HA |]].
  destruct (loop_some votes (length A) A [] Hnd (Nat.le_succ_diag_r _)) as [A' [R' HL]].
  exists A', R'; split; [exact HL |].
  unfold calculate_ranked_choice_winner.
  destruct votes as [| v vs]; [congruence |]; destruct books as [| bk0 bks]; [congruence |].
  fold A; destruct A as [| a0 As]; [congruence |].
  rewrite HL; reflexivity.
Qed.

Lemma filter_nil_iff {X} (f : X -> bool) l : filter f l = [] <-> forall x, In x l -> f x = false.
Proof.
  induction l as [| y l IH]; simpl; [tauto |].
  destruct (f y) eqn:E; split.
  - discriminate.
  - intro H; rewrite (H y (or_introl eq_refl)) in E; discriminate.
  - intros H x [<- | Hx]; [exact E | apply IH; assumption].
  - intro H; apply IH; auto.
Qed.

Lemma active_insertions_nil votes books :
  active_insertions votes books = [] <-> ~ references_known votes books.
Proof.
  unfold active_insertions, references_known; rewrite filter_nil_iff; split.
  - intros H [voter [ranked [x [Hv [Hx Hb]]]]].
    specialize (H x Hb); apply mem_false in H; apply H.
    unfold voted_ids; apply in_concat; exists ranked; split; [| exact Hx].
    apply in_map_iff; exists (voter, ranked); auto.
  - intros H x Hb; apply mem_false; intro Hx.
    unfold voted_ids in Hx; apply in_concat in Hx as [ranked [Hr Hx]].
    apply in_map_iff in Hr as [[voter r] [Hr Hvr]]; simpl in Hr; subst r.
    apply H; exists voter, ranked, x; auto.
Qed.

Lemma active_insertions_known votes books :
  active_insertions votes books <> [] -> references_known votes books.
Proof.
  destruct (active_insertions votes books) as [| x r] eqn:E; [congruence |]; intros _.
  assert (Hx : In x (active_insertions votes books)) by (rewrite E; left; reflexivity).
  unfold active_insertions in Hx; apply filter_In in Hx as [Hb Hm].
  apply mem_In in Hm; unfold voted_ids in Hm; apply in_concat in Hm as [ranked [Hr Hx]].
  apply in_map_iff in Hr as [[voter r'] [Hr Hvr]]; simpl in Hr; subst r'.
  exists voter, ranked, x; auto.
Qed.

Lemma finish_long votes A R : 1 < length A -> finish votes A R = R.
Proof. destruct A as [| x [| y A]]; simpl; intro H; [lia | lia | reflexivity]. Qed.

Lemma singleton_of_length (A : list string) : A <> [] -> length A <= 1 -> exists w, A = [w].
Proof. destruct A as [| x [| y A]]; simpl; intros; [congruence | eauto | lia]. Qed.

(** ** Only the last round names a winner *)

Lemma loop_winner_last votes fuel A R A' R' :
  A <> [] -> Forall (fun r => winner r = None) R -> NoDup A ->
  loop fuel votes A R = Some (A', R') ->
  exists pre last, finish votes A' R' = pre ++ [last] /\ winner last <> None
                   /\ Forall (fun r => winner r = None) pre.
Proof.
  intros HA HR Hnd HL.
  apply (loop_preserves votes
           (fun A R => A <> [] /\ Forall (fun r => winner r = None) R)
           (fun A R => exists pre last, finish votes A R = pre ++ [last] /\ winner last <> None
                        /\ Forall (fun r => winner r = None) pre))
    with (fuel := fuel) (A := A) (R := R); [| | split; assumption | exact Hnd | exact HL].
  - intros A0 R0 [HA0 HR0] _ Hl.
    destruct (singleton_of_length A0 HA0 Hl) as [w ->].
    simpl; eexists R0, _; split; [reflexivity | split; [simpl; congruence | exact HR0]].
  - intros A0 R0 res [HA0 HR0] Hnd0 Hl Hsh; destruct Hsh.
    + rewrite finish_long by exact Hl.
      eexists R0, _; split; [reflexivity | split; [simpl; congruence | exact HR0]].
    + simpl finish.
      exists (R0 ++ [count_round votes A0 R0 (Some e) None None]), (winner_round votes
        (R0 ++ [count_round votes A0 R0 (Some e) None None]) w).
      split; [rewrite <- app_assoc; reflexivity |].
      split; [simpl; congruence |].
      apply Forall_app; split; [exact HR0 | constructor; [reflexivity | constructor]].
    + split.
      * intro Hnil. assert (Hlen := length_remove_NoDup e A0 Hnd0 H2).
        rewrite Hnil in Hlen; simpl in Hlen; lia.
      * apply Forall_app; split; [exact HR0 | constructor; [reflexivity | constructor]].
Qed.

(** ** Vote totals *)

Lemma tally_cons g r bs b :
  tally g (r :: bs) b
  = (match g r with Some c => if String.eqb c b then 1 else 0 | None => 0 end) + tally g bs b.
Proof. unfold tally; simpl; destruct (g r) as [c |]; [destruct (String.eqb c b) |]; reflexivity. Qed.

Lemma list_sum_map_add (A : list string) (f h : string -> nat) :
  list_sum (map (fun b => f b + h b) A) = list_sum (map f A) + list_sum (map h A).
Proof. induction A as [| x A IH]; simpl; [reflexivity | rewrite IH; lia]. Qed.

Lemma sum_indicator c (A : list string) :
  NoDup A -> list_sum (map (fun b => if String.eqb c b then 1 else 0) A) = if mem c A then 1 else 0.
Proof.
  induction A as [| x A IH]; simpl; intro Hnd; [reflexivity |].
  inversion Hnd as [| ? ? Hx Hnd']; subst.
  unfold mem in *; simpl. rewrite (IH Hnd').
  destruct (String.eqb c x) eqn:E; simpl; [| reflexivity].
  apply String.eqb_eq in E; subst.
  destruct (existsb (String.eqb x) A) eqn:E'; [| reflexivity].
  exfalso; apply Hx; apply (mem_In x A), E'.
Qed.

Lemma sum_tally g bs (A : list string) :
  NoDup A -> (forall r c, g r = Some c -> In c A) ->
  list_sum (map (tally g bs) A) = length (filter (fun r => match g r with Some _ => true | None => false end) bs).
Proof.
  intros Hnd Hg; induction bs as [| r bs IH].
  - simpl; clear Hnd Hg; induction A as [| x A IHA]; [reflexivity |].
    simpl; rewrite IHA; reflexivity.
  - rewrite (map_ext _ _ (tally_cons g r bs)), list_sum_map_add, IH; simpl.
    destruct (g r) as [c |] eqn:E.
    + rewrite sum_indicator by exact Hnd.
      rewrite (proj2 (mem_In c A) (Hg r c E)); reflexivity.
    + assert (Hz : forall K : list string, list_sum (map (fun _ => 0) K) = 0)
        by (intro K; induction K as [| ? ? IHK]; simpl; [reflexivity | exact IHK]).
      rewrite Hz; reflexivity.
Qed.

Lemma sum_count_votes votes A :
  NoDup A ->
  list_sum (map snd (count_votes votes A))
  = length (filter (fun r => match first_active A r with Some _ => true | None => false end)
                   (map snd votes)).
Proof.
  intro Hnd; rewrite count_votes_eq, map_map; simpl.
  apply sum_tally; [exact Hnd |].
  intros r c Hc; exact (proj1 (first_active_In _ _ _ Hc)).
Qed.

Lemma count_round_total_ok votes A R e w mw :
  NoDup A -> round_total_ok votes (count_round votes A R e w mw).
Proof.
  intro Hnd; unfold round_total_ok, sum_counts, count_round; simpl.
  rewrite sum_count_votes by exact Hnd.
  rewrite map_fst_count_votes.
  split.
  - rewrite <- (length_map snd votes). apply filter_length_le.
  - intro Hall. rewrite <- (length_map snd votes).
    f_equal; apply forallb_filter_id, forallb_forall. intros r Hr.
    apply in_map_iff in Hr as [[voter ranked] [Hr Hin]]; simpl in Hr; subst r.
    destruct (Hall voter ranked Hin) as [x [Hx HxA]].
    destruct (first_active A ranked) eqn:E; [reflexivity |].
    exfalso; exact (first_active_None A ranked E x Hx HxA).
Qed.

Lemma winner_round_total_ok votes R w : round_total_ok votes (winner_round votes R w).
Proof. unfold round_total_ok, sum_counts, winner_round; simpl; split; [lia | intros; lia]. Qed.

Lemma loop_totals votes fuel A R A' R' :
  Forall (round_total_ok votes) R -> NoDup A ->
  loop fuel votes A R = Some (A', R') ->
  Forall (round_total_ok votes) (finish votes A' R').
Proof.
  intros HR Hnd HL.
  apply (loop_preserves votes (fun _ R => Forall (round_total_ok votes) R)
                              (fun A R => Forall (round_total_ok votes) (finish votes A R)))
    with (fuel := fuel) (A := A) (R := R); [| | exact HR | exact Hnd | exact HL].
  - intros A0 R0 HR0 _ Hl.
    destruct A0 as [| w [| ? ?]]; simpl; [exact HR0 | | simpl in Hl; lia].
    apply Forall_app; split; [exact HR0 | constructor; [apply winner_round_total_ok | constructor]].
  - intros A0 R0 res HR0 Hnd0 Hl Hsh; destruct Hsh.
    + rewrite finish_long by exact Hl.
      apply Forall_app; split; [exact HR0 | constructor; [apply count_round_total_ok, Hnd0 | constructor]].
    + simpl finish.
      apply Forall_app; split; [exact HR0 |].
      constructor; [apply count_round_total_ok, Hnd0 |].
      constructor; [apply winner_round_total_ok | constructor].
    + apply Forall_app; split; [exact HR0 | constructor; [apply count_round_total_ok, Hnd0 | constructor]].
Qed.

(** ** Active-set sizes along the rounds *)

Lemma app_two {X} (R : list X) x y : R ++ [x; y] = (R ++ [x]) ++ [y].
Proof. rewrite <- app_assoc; reflexivity. Qed.

Lemma nth_pair_snoc (R : list Round) x i r1 r2 :
  nth_error (R ++ [x]) i = Some r1 -> nth_error (R ++ [x]) (S i) = Some r2 ->
  (nth_error R i = Some r1 /\ nth_error R (S i) = Some r2)
  \/ (S i = length R /\ nth_error R (pred (length R)) = Some r1 /\ r2 = x).
Proof.
  intros H1 H2.
  destruct (Nat.lt_trichotomy (S i) (length R)) as [Hlt | [Heq | Hgt]].
  - left; rewrite nth_error_app1 in H1 by lia; rewrite nth_error_app1 in H2 by lia; auto.
  - right; rewrite nth_error_app1 in H1 by lia.
    rewrite nth_error_app2 in H2 by lia; rewrite Heq, Nat.sub_diag in H2; simpl in H2.
    injection H2 as <-; split; [exact Heq | split; [rewrite <- Heq; exact H1 | reflexivity]].
  - rewrite nth_error_app2 in H2 by lia.
    destruct (S i - length R) as [| k] eqn:E; [lia |]; simpl in H2; destruct k; discriminate.
Qed.

Lemma nth_last_snoc (R : list Round) x : nth_error (R ++ [x]) (pred (length (R ++ [x]))) = Some x.
Proof.
  rewrite length_app; simpl; rewrite Nat.add_1_r; simpl.
  rewrite nth_error_app2 by lia; rewrite Nat.sub_diag; reflexivity.
Qed.

Lemma chain_snoc R x :
  chain R -> (forall r, nth_error R (pred (length R)) = Some r -> strict_pair r x) ->
  chain (R ++ [x]).
Proof.
  intros HR Hlast i r1 r2 H1 H2.
  destruct (nth_pair_snoc R x i r1 r2 H1 H2) as [[E1 E2] | [_ [E1 ->]]].
  - exact (HR i r1 r2 E1 E2).
  - exact (Hlast r1 E1).
Qed.

Lemma adjacent_snoc R x :
  chain R ->
  (forall r, nth_error R (pred (length R)) = Some r ->
     active_books x < active_books r /\ eliminated r <> None /\
     (active_books x = active_books r - 1 \/ (active_books x = 1 /\ winner x <> None))) ->
  adjacent_ok (R ++ [x]).
Proof.
  intros HR Hlast i r1 r2 H1 H2.
  destruct (nth_pair_snoc R x i r1 r2 H1 H2) as [[E1 E2] | [Hi [E1 ->]]].
  - destruct (HR i r1 r2 E1 E2) as [Ha [Hb Hc]]; auto.
  - destruct (Hlast r1 E1) as [Ha [Hb [Hc | [Hc Hd]]]]; split; auto; split; auto.
    right; rewrite length_app, Hi; simpl; split; [lia | auto].
Qed.

Lemma sizes_inv_init A : A <> [] -> sizes_inv A [].
Proof.
  intro HA; split; [exact HA | split].
  - intros i r1 r2 H; destruct i; discriminate.
  - intros r H; discriminate.
Qed.

Lemma loop_sizes votes fuel A R A' R' :
  sizes_inv A R -> NoDup A ->
  loop fuel votes A R = Some (A', R') ->
  adjacent_ok (finish votes A' R').
Proof.
  intros HI Hnd HL.
  apply (loop_preserves votes sizes_inv (fun A R => adjacent_ok (finish votes A R)))
    with (fuel := fuel) (A := A) (R := R); [| | exact HI | exact Hnd | exact HL].
  - intros A0 R0 [HA0 [Hc Hl0]] _ Hl.
    destruct (singleton_of_length A0 HA0 Hl) as [w ->]; simpl finish.
    apply adjacent_snoc; [exact Hc |]; intros r Hr.
    destruct (Hl0 r Hr) as [He Ha]; simpl in *; rewrite Ha; split; [lia | split; [exact He | left; lia]].
  - intros A0 R0 res [HA0 [Hc Hl0]] Hnd0 Hl Hsh; destruct Hsh.
    + rewrite finish_long by exact Hl.
      apply adjacent_snoc; [exact Hc |]; intros r Hr.
      destruct (Hl0 r Hr) as [He Ha]; simpl; rewrite Ha; split; [lia | split; [exact He | left; lia]].
    + simpl finish. rewrite app_two.
      apply adjacent_snoc.
      * apply chain_snoc; [exact Hc |]; intros r Hr.
        destruct (Hl0 r Hr) as [He Ha]; unfold strict_pair; simpl; rewrite Ha; split; [exact He | lia].
      * rewrite nth_last_snoc; intros r Hr; injection Hr as <-; simpl.
        split; [lia | split; [congruence | right; split; [reflexivity | congruence]]].
    + assert (Hlen := length_remove_NoDup e A0 Hnd0 H2).
      split; [| split].
      * intro Hnil; rewrite Hnil in Hlen; simpl in Hlen; lia.
      * apply chain_snoc; [exact Hc |]; intros r Hr.
        destruct (Hl0 r Hr) as [He Ha]; unfold strict_pair; simpl; rewrite Ha; split; [exact He | lia].
      * rewrite nth_last_snoc; intros r Hr; injection Hr as <-; simpl.
        split; [congruence | lia].
Qed.

(** ** Single-round counting facts *)

Lemma tally_pair g bs a b : a <> b -> tally g bs a + tally g bs b <= length bs.
Proof.
  intro Hab; induction bs as [| r bs IH]; [unfold tally; simpl; lia |].
  rewrite !tally_cons; simpl.
  destruct (g r) as [c |]; [| lia].
  destruct (String.eqb c a) eqn:Ea, (String.eqb c b) eqn:Eb; try lia.
  apply String.eqb_eq in Ea; apply String.eqb_eq in Eb; congruence.
Qed.

Lemma majority_pair votes A a b ca cb :
  a <> b -> In (a, ca) (count_votes votes A) -> In (b, cb) (count_votes votes A) ->
  exceeds ca (length votes) = true -> exceeds cb (length votes) = true -> False.
Proof.
  intros Hab Ha Hb Hea Heb.
  rewrite count_votes_eq in Ha, Hb.
  apply in_map_iff in Ha as [a' [Ea _]]; injection Ea as <- <-.
  apply in_map_iff in Hb as [b' [Eb _]]; injection Eb as <- <-.
  apply exceeds_iff in Hea; apply exceeds_iff in Heb.
  pose proof (tally_pair (first_active A) (map snd votes) _ _ Hab) as Hp.
  rewrite length_map in Hp; lia.
Qed.

Lemma find_majority_Some t d w : find_majority t d = Some w -> exists c, In (w, c) d /\ exceeds c t = true.
Proof.
  induction d as [| [b c] d IH]; simpl; [discriminate |].
  destruct (exceeds c t) eqn:E.
  - intro H; injection H as <-; eauto.
  - intro H; destruct (IH H) as [c' [Hin He]]; eauto.
Qed.

Lemma find_majority_None t d : find_majority t d = None -> forall w c, In (w, c) d -> exceeds c t = false.
Proof.
  induction d as [| [b c] d IH]; simpl; [tauto |].
  destruct (exceeds c t) eqn:E; [discriminate |].
  intros H w c' [Heq | Hin]; [injection Heq as <- <-; exact E | exact (IH H w c' Hin)].
Qed.

(** When the majority book has a non-empty identity, the iteration ends
    with a majority round naming it, as section 4.3 describes. *)
Lemma majority_declared_nonempty votes A R w c :
  In (w, c) (count_votes votes A) -> exceeds c (length votes) = true -> w <> ""%string ->
  step votes A R = Some (Break A (R ++ [count_round votes A R None (Some w) (Some true)])).
Proof.
  intros Hin He Hw.
  unfold step, declared_majority.
  destruct (find_majority (length votes) (count_votes votes A)) as [w' |] eqn:Hf.
  - destruct (find_majority_Some _ _ _ Hf) as [c' [Hin' He']].
    destruct (String.eqb_spec w' w) as [-> | Hne].
    + unfold truthy; destruct (String.eqb_spec w ""%string) as [E | _]; [contradiction | reflexivity].
    + exfalso; exact (majority_pair votes A w' w c' c Hne Hin' Hin He' He).
  - rewrite (find_majority_None _ _ Hf w c Hin) in He; discriminate.
Qed.

(** ** Claims *)

(** C1 (code_bug).  A book whose identity is the empty string and which
    holds 2 of 3 first preferences (2 > 3/2) is not declared a majority
    winner: [if majority_winner:] treats [""] as "no winner".  The engine
    eliminates "b" instead, and "" wins a later round without the majority
    flag. *)
Theorem empty_id_majority_missed :
  exceeds 2 3 = true /\
  calculate_ranked_choice_winner dedup empty_id_majority [bk ""; bk "b"]
  = Some [mkRound 1 [(""%string, 2); ("b"%string, 1)] 2 (Some "b"%string) None None;
          mkRound 2 [(""%string, 3)] 1 None (Some ""%string) None].
Proof. split; vm_compute; reflexivity. Qed.

(** C2.  Every ballot's next-preference credit is the first tied entry
    after its first active entry, in both branches of the source; and the
    tie set becomes its members with the fewest credits only when some
    member has a credit, and is left unchanged otherwise. *)
Theorem tie_break_uniform_credit votes active tied :
  (forall ranked ncc,
     next_choice_ballot active tied ranked ncc
     = match spec_next_credit active tied ranked with
       | Some b => incr b ncc
       | None => ncc
       end) /\
  tie_break votes active tied = spec_tie_break votes active tied.
Proof.
  split; [intros; apply next_choice_ballot_eq | apply tie_break_eq].
Qed.

(** C3.  When no majority is declared and the tie set left by the
    next-preference tie-break contains the whole active set, the iteration
    eliminates the first tied book, appends a round declaring the second
    one winner with all [length votes] ballots and no majority flag, and the
    loop ends with exactly these two rounds appended (the final phase adds
    nothing). *)
Theorem total_tie_two_rounds votes A R fuel bw :
  NoDup A -> 1 < length A ->
  declared_majority (length votes) (count_votes votes A) = None ->
  tie_set votes A (count_votes votes A) = Some bw ->
  (forall x, In x A -> In x bw) ->
  exists e w rest L,
    bw = e :: w :: rest /\
    L = R ++ [mkRound (S (length R)) (count_votes votes A) (length A) (Some e) None None;
              mkRound (S (S (length R))) [(w, length votes)] 1 None (Some w) None] /\
    loop (S fuel) votes A R = Some ([], L) /\
    finish votes [] L = L.
Proof.
  intros Hnd Hl Hmaj Hts Hall.
  destruct (tie_set_shape votes A Hnd) as [bw' [Hts' [_ [Hsub Hbnd]]]];
    [destruct A; simpl in Hl; [lia | congruence] |].
  rewrite Hts in Hts'; injection Hts' as <-.
  assert (Hlen : length bw = length A).
  { apply Nat.le_antisymm; apply NoDup_incl_length; auto. }
  destruct (step_cases votes A R Hnd Hl) as [res [Hstep Hsh]].
  destruct Hsh as [w Hm | e w rest Hm Ht Hlt He Hw | e rest Hm Ht Hlt He].
  - congruence.
  - rewrite Hts in Ht; injection Ht as ->.
    eexists e, w, rest, _; split; [reflexivity | split; [reflexivity |]].
    split; [| reflexivity].
    simpl loop; apply Nat.ltb_lt in Hl; rewrite Hl, Hstep.
    unfold winner_round, count_round; rewrite length_app; simpl.
    rewrite Nat.add_1_r; reflexivity.
  - rewrite Hts in Ht; injection Ht as ->; contradiction.
Qed.

Lemma total_tie_two_rounds_witness :
  exists e w rest L,
    ["A"; "B"]%string = e :: w :: rest /\
    L = [] ++ [mkRound 1 (count_votes scenario_C ["A"; "B"]%string) 2 (Some e) None None;
               mkRound 2 [(w, 2)] 1 None (Some w) None] /\
    loop 1 scenario_C ["A"; "B"]%string [] = Some ([], L) /\
    finish scenario_C [] L = L.
Proof.
  apply (total_tie_two_rounds scenario_C ["A"; "B"]%string [] 0 ["A"; "B"]%string).
  - constructor; [simpl; intros [H | []]; discriminate | constructor; [simpl; tauto | constructor]].
  - simpl; lia.
  - vm_compute; reflexivity.
  - vm_compute; reflexivity.
  - simpl; tauto.
Defined.

(** C4.  The result is [[]] exactly when there are no ballots, no books, or
    no ballot ranks a book of the list; otherwise it is a non-empty list
    whose last round, and no other, names a winner. *)
Theorem empty_iff_and_single_winner so votes books :
  set_iter_ok so ->
  exists rounds,
    calculate_ranked_choice_winner so votes books = Some rounds /\
    (rounds = [] <-> votes = [] \/ books = [] \/ ~ references_known votes books) /\
    (rounds <> [] -> exists pre last, rounds = pre ++ [last] /\ winner last <> None
                                      /\ Forall (fun r => winner r = None) pre).
Proof.
  intro Hso.
  destruct (match votes with [] => left eq_refl | _ :: _ => right (@nil_cons _ _ _) end
            : {votes = []} + {[] <> votes}) as [Hv | Hv];
  [| destruct (match books with [] => left eq_refl | _ :: _ => right (@nil_cons _ _ _) end
               : {books = []} + {[] <> books}) as [Hb | Hb];
     [| destruct (active_insertions votes books) as [| a0 As] eqn:Hai]].
  - exists []; split; [apply calculate_empty; auto |]; split; [tauto | congruence].
  - exists []; split; [apply calculate_empty; auto |]; split; [tauto | congruence].
  - exists []; split; [apply calculate_empty; auto |]; split; [| congruence].
    split; [intros _; right; right; apply active_insertions_nil, Hai | tauto].
  - assert (Hne : active_insertions votes books <> []) by congruence.
    apply not_eq_sym in Hv; apply not_eq_sym in Hb.
    destruct (calculate_run so votes books Hso Hv Hb Hne) as [Hnd [HA [A' [R' [HL Hc]]]]].
    destruct (loop_winner_last votes _ _ _ _ _ HA (Forall_nil _) Hnd HL)
      as [pre [last [Hf [Hw Hpre]]]].
    exists (finish votes A' R'); split; [exact Hc |]; rewrite Hf; split.
    + split; [intro H; destruct pre; discriminate |].
      intros [H | [H | H]]; [contradiction | contradiction |].
      exfalso; exact (H (active_insertions_known _ _ Hne)).
    + intros _; exists pre, last; auto.
Qed.

Lemma empty_iff_and_single_winner_witness :
  exists rounds,
    calculate_ranked_choice_winner dedup scenario_A [bk "X"; bk "Y"; bk "Z"] = Some rounds /\
    (rounds = [] <-> scenario_A = [] \/ [bk "X"; bk "Y"; bk "Z"] = []
                     \/ ~ references_known scenario_A [bk "X"; bk "Y"; bk "Z"]) /\
    (rounds <> [] -> exists pre last, rounds = pre ++ [last] /\ winner last <> None
                                      /\ Forall (fun r => winner r = None) pre).
Proof. apply empty_iff_and_single_winner; exact dedup_ok. Defined.

Lemma singleton_of_members (L : list string) w :
  NoDup L -> (forall x, In x L <-> x = w) -> L = [w].
Proof.
  intros Hnd Hin; destruct L as [| y L]; [exfalso; apply (proj2 (Hin w) eq_refl) |].
  assert (Hy : y = w) by (apply Hin; left; reflexivity); subst y.
  inversion Hnd as [| ? ? Hw _]; subst.
  destruct L as [| z L]; [reflexivity |].
  exfalso; assert (Hz : z = w) by (apply Hin; right; left; reflexivity); subst z.
  apply Hw; left; reflexivity.
Qed.

(** C5, refuted.  One ballot ranking one book: there is exactly one
    tabulatable book, and the result is not empty but a single round
    declaring that book the winner. *)
Lemma single_candidate_not_empty :
  active_insertions [("v1"%string, ["a"%string])] [bk "a"] = ["a"%string] /\
  calculate_ranked_choice_winner dedup [("v1"%string, ["a"%string])] [bk "a"]
  = Some [mkRound 1 [("a"%string, 1)] 1 None (Some "a"%string) None] /\
  calculate_ranked_choice_winner dedup [("v1"%string, ["a"%string])] [bk "a"] <> Some [].
Proof. split; [| split]; vm_compute; [reflexivity | reflexivity | discriminate]. Qed.

(** C5, as the code does it.  No ballots, no books, or no ballot ranking a
    book of the list: the result is the empty list, not an error.  Exactly
    one tabulatable book [w]: the result is one round giving [w] all
    [length votes] ballots and naming it winner, without majority flag. *)
Theorem empty_or_single_round so votes books :
  set_iter_ok so ->
  ((votes = [] \/ books = [] \/ ~ references_known votes books) ->
   calculate_ranked_choice_winner so votes books = Some []) /\
  (forall w, votes <> [] -> books <> [] ->
   (forall x, In x (active_insertions votes books) <-> x = w) ->
   calculate_ranked_choice_winner so votes books
   = Some [mkRound 1 [(w, length votes)] 1 None (Some w) None]).
Proof.
  intro Hso; split.
  - intro H; apply calculate_empty; [exact Hso |].
    destruct H as [H | [H | H]]; auto; right; right; apply active_insertions_nil, H.
  - intros w Hv Hb Hin.
    assert (Hw : so (active_insertions votes books) = [w]).
    { apply singleton_of_members; [apply (proj1 (Hso _)) |].
      intro x; rewrite (proj2 (Hso _) x); apply Hin. }
    unfold calculate_ranked_choice_winner.
    destruct votes as [| v vs]; [congruence |]; destruct books as [| b bs]; [congruence |].
    rewrite Hw; reflexivity.
Qed.

Lemma empty_or_single_round_witness :
  (([] : Votes) = [] \/ [bk "a"] = [] \/ ~ references_known [] [bk "a"]) /\
  calculate_ranked_choice_winner dedup [] [bk "a"] = Some [] /\
  [("v1"%string, ["a"%string])] <> [] /\ [bk "a"] <> [] /\
  (forall x, In x (active_insertions [("v1"%string, ["a"%string])] [bk "a"]) <-> x = "a"%string) /\
  calculate_ranked_choice_winner dedup [("v1"%string, ["a"%string])] [bk "a"]
  = Some [mkRound 1 [("a"%string, length [("v1"%string, ["a"%string])])] 1 None (Some "a"%string) None].
Proof.
  assert (Hempty : ([] : Votes) = [] \/ [bk "a"] = [] \/ ~ references_known [] [bk "a"])
    by (left; reflexivity).
  assert (Hv : [("v1"%string, ["a"%string])] <> []) by discriminate.
  assert (Hb : [bk "a"] <> []) by discriminate.
  assert (Hin : forall x, In x (active_insertions [("v1"%string, ["a"%string])] [bk "a"]) <-> x = "a"%string).
  { intro x; vm_compute; split; [intros [H | []]; symmetry; exact H | intros ->; left; reflexivity]. }
  split; [exact Hempty |].
  split; [apply (proj1 (empty_or_single_round dedup [] [bk "a"] dedup_ok)); exact Hempty |].
  split; [exact Hv | split; [exact Hb | split; [exact Hin |]]].
  apply (proj2 (empty_or_single_round dedup [("v1"%string, ["a"%string])] [bk "a"] dedup_ok));
    [exact Hv | exact Hb | exact Hin].
Defined.

(** C6, refuted.  Three books tied in first and next preferences: the
    elimination round has 3 active books and the round after it 1. *)
Lemma three_way_tie_drops_two :
  calculate_ranked_choice_winner dedup cyclic_3 [bk "A"; bk "B"; bk "C"]
  = Some [mkRound 1 [("A"%string, 1); ("B"%string, 1); ("C"%string, 1)] 3
            (Some "A"%string) None None;
          mkRound 2 [("B"%string, 3)] 1 None (Some "B"%string) None].
Proof. vm_compute; reflexivity. Qed.

(** C6, as the code does it.  Between consecutive rounds the number of
    active books strictly decreases and the earlier round records an
    elimination; the later round has exactly one active book fewer, except
    when it is the last round, which then has one active book and names a
    winner (the total-tie case, where more than one book can drop). *)
Theorem active_sizes_decrease so votes books rounds :
  set_iter_ok so ->
  calculate_ranked_choice_winner so votes books = Some rounds ->
  forall i r1 r2, nth_error rounds i = Some r1 -> nth_error rounds (S i) = Some r2 ->
    active_books r2 < active_books r1 /\ eliminated r1 <> None /\
    (active_books r2 = active_books r1 - 1
     \/ (S (S i) = length rounds /\ active_books r2 = 1 /\ winner r2 <> None)).
Proof.
  intros Hso Hc.
  destruct votes as [| v vs]; [injection Hc as <-; intros i ? ? H; destruct i; discriminate |].
  destruct books as [| b bs]; [injection Hc as <-; intros i ? ? H; destruct i; discriminate |].
  destruct (active_insertions (v :: vs) (b :: bs)) as [| a0 As] eqn:Hai.
  - rewrite calculate_empty in Hc by (auto; tauto).
    injection Hc as <-; intros i ? ? H; destruct i; discriminate.
  - destruct (calculate_run so (v :: vs) (b :: bs) Hso ltac:(discriminate) ltac:(discriminate)
                ltac:(rewrite Hai; discriminate)) as [Hnd [HA [A' [R' [HL Hc']]]]].
    rewrite Hc' in Hc; injection Hc as <-.
    apply (loop_sizes _ _ _ _ _ _ (sizes_inv_init _ HA) Hnd HL).
Qed.

Lemma active_sizes_decrease_witness :
  active_books cyclic_3_round2 < active_books cyclic_3_round1 /\ eliminated cyclic_3_round1 <> None /\
  (active_books cyclic_3_round2 = active_books cyclic_3_round1 - 1
   \/ (S (S 0) = length [cyclic_3_round1; cyclic_3_round2] /\ active_books cyclic_3_round2 = 1
       /\ winner cyclic_3_round2 <> None)).
Proof.
  apply (active_sizes_decrease dedup cyclic_3 [bk "A"; bk "B"; bk "C"]
           [cyclic_3_round1; cyclic_3_round2] dedup_ok).
  - vm_compute; reflexivity.
  - reflexivity.
  - reflexivity.
Defined.

(** C7.  In every round (in particular every non-final one) the counts add
    up to at most the number of ballots, and to exactly that number when
    every ballot ranks some book counted in the round. *)
Theorem round_totals_bounded so votes books rounds :
  set_iter_ok so ->
  calculate_ranked_choice_winner so votes books = Some rounds ->
  forall r, In r rounds ->
    list_sum (map snd (vote_counts r)) <= length votes /\
    ((forall voter ranked, In (voter, ranked) votes ->
        exists x, In x ranked /\ In x (map fst (vote_counts r))) ->
     list_sum (map snd (vote_counts r)) = length votes).
Proof.
  intros Hso Hc.
  destruct votes as [| v vs]; [injection Hc as <-; simpl; tauto |].
  destruct books as [| b bs]; [injection Hc as <-; simpl; tauto |].
  destruct (active_insertions (v :: vs) (b :: bs)) as [| a0 As] eqn:Hai.
  - rewrite calculate_empty in Hc by (auto; tauto).
    injection Hc as <-; simpl; tauto.
  - destruct (calculate_run so (v :: vs) (b :: bs) Hso ltac:(discriminate) ltac:(discriminate)
                ltac:(rewrite Hai; discriminate)) as [Hnd [HA [A' [R' [HL Hc']]]]].
    rewrite Hc' in Hc; injection Hc as <-.
    apply Forall_forall, (loop_totals _ _ _ _ _ _ (Forall_nil _) Hnd HL).
Qed.

Lemma round_totals_bounded_witness :
  list_sum (map snd (vote_counts cyclic_3_round1)) <= length cyclic_3 /\
  ((forall voter ranked, In (voter, ranked) cyclic_3 ->
      exists x, In x ranked /\ In x (map fst (vote_counts cyclic_3_round1))) ->
   list_sum (map snd (vote_counts cyclic_3_round1)) = length cyclic_3).
Proof.
  apply (round_totals_bounded dedup cyclic_3 [bk "A"; bk "B"; bk "C"]
           [cyclic_3_round1; cyclic_3_round2] dedup_ok).
  - vm_compute; reflexivity.
  - left; reflexivity.
Defined.

(** C8, refuted.  Both the insertion order and its reverse are valid
    iteration orders of the active set; on Scenario C they make different
    books win. *)
Lemma iteration_order_changes_winner :
  set_iter_ok dedup /\ set_iter_ok (fun l => rev (dedup l)) /\
  calculate_ranked_choice_winner dedup scenario_C [bk "A"; bk "B"]
  = Some [mkRound 1 [("A"%string, 1); ("B"%string, 1)] 2 (Some "A"%string) None None;
          mkRound 2 [("B"%string, 2)] 1 None (Some "B"%string) None] /\
  calculate_ranked_choice_winner (fun l => rev (dedup l)) scenario_C [bk "A"; bk "B"]
  = Some [mkRound 1 [("B"%string, 1); ("A"%string, 1)] 2 (Some "B"%string) None None;
          mkRound 2 [("A"%string, 2)] 1 None (Some "A"%string) None].
Proof.
  split; [exact dedup_ok | split; [exact rev_dedup_ok | split; vm_compute; reflexivity]].
Qed.

(** C8, as the code does it.  The result is a function of the ballots, the
    book list and the iteration order of the initial active set: two runs
    that order that set alike (as within one interpreter process) return the
    same rounds. *)
Theorem result_determined_by_iteration_order so1 so2 votes books :
  so1 (active_insertions votes books) = so2 (active_insertions votes books) ->
  calculate_ranked_choice_winner so1 votes books = calculate_ranked_choice_winner so2 votes books.
Proof.
  intro H; unfold calculate_ranked_choice_winner.
  destruct votes, books; try reflexivity; rewrite H; reflexivity.
Qed.

Lemma result_determined_by_iteration_order_witness :
  calculate_ranked_choice_winner dedup scenario_A [bk "X"; bk "Y"; bk "Z"]
  = calculate_ranked_choice_winner (fun l => l) scenario_A [bk "X"; bk "Y"; bk "Z"].
Proof.
  apply result_determined_by_iteration_order; vm_compute; reflexivity.
Defined.

(** C9.  In one round's count no two distinct books both exceed half of
    the ballots. *)
Theorem at_most_one_majority votes A a b ca cb :
  a <> b -> In (a, ca) (count_votes votes A) -> In (b, cb) (count_votes votes A) ->
  exceeds ca (length votes) && exceeds cb (length votes) = false.
Proof.
  intros Hab Ha Hb.
  destruct (exceeds ca (length votes)) eqn:Ea, (exceeds cb (length votes)) eqn:Eb; try reflexivity.
  exfalso; exact (majority_pair votes A a b ca cb Hab Ha Hb Ea Eb).
Qed.

Lemma at_most_one_majority_witness :
  exceeds 3 (length scenario_B) && exceeds 2 (length scenario_B) = false.
Proof.
  apply (at_most_one_majority scenario_B ["A"; "B"]%string "A"%string "B"%string 3 2).
  - discriminate.
  - vm_compute; left; reflexivity.
  - vm_compute; right; left; reflexivity.
Defined.

(** C10.  Tabulation always returns (no exception, no exhausted loop), and
    the [while] loop needs at most [|active| - 1] iterations: run with that
    many it already finishes. *)
Theorem tabulation_terminates so votes books :
  set_iter_ok so ->
  calculate_ranked_choice_winner so votes books <> None /\
  loop (pred (length (so (active_insertions votes books)))) votes
       (so (active_insertions votes books)) [] <> None.
Proof.
  intro Hso.
  assert (Hnd : NoDup (so (active_insertions votes books))) by apply (proj1 (Hso _)).
  split.
  - destruct votes as [| v vs]; [discriminate |]; destruct books as [| b bs]; [discriminate |].
    destruct (active_insertions (v :: vs) (b :: bs)) as [| a0 As] eqn:Hai.
    + rewrite calculate_empty by (auto; tauto); discriminate.
    + destruct (calculate_run so (v :: vs) (b :: bs) Hso ltac:(discriminate) ltac:(discriminate)
                  ltac:(rewrite Hai; discriminate)) as [_ [_ [A' [R' [_ Hc]]]]].
      rewrite Hc; discriminate.
  - destruct (loop_some votes (pred (length (so (active_insertions votes books))))
                (so (active_insertions votes books)) [] Hnd ltac:(lia)) as [A' [R' HL]].
    rewrite HL; discriminate.
Qed.

Lemma tabulation_terminates_witness :
  calculate_ranked_choice_winner dedup cyclic_3 [bk "A"; bk "B"; bk "C"] <> None /\
  loop (pred (length (dedup (active_insertions cyclic_3 [bk "A"; bk "B"; bk "C"])))) cyclic_3
       (dedup (active_insertions cyclic_3 [bk "A"; bk "B"; bk "C"])) [] <> None.
Proof. apply tabulation_terminates; exact dedup_ok. Defined.

(** ** The scenarios of the spec (section 8) *)

Example scenario_A_rounds :
  calculate_ranked_choice_winner dedup scenario_A [bk "X"; bk "Y"; bk "Z"]
  = Some [mkRound 1 [("X"%string, 2); ("Y"%string, 2); ("Z"%string, 1)] 3 (Some "Z"%string) None None;
          mkRound 2 [("X"%string, 3); ("Y"%string, 2)] 2 None (Some "X"%string) (Some true)].
Proof. vm_compute; reflexivity. Qed.

Example scenario_B_rounds :
  calculate_ranked_choice_winner dedup scenario_B [bk "A"; bk "B"]
  = Some [mkRound 1 [("A"%string, 3); ("B"%string, 2)] 2 None (Some "A"%string) (Some true)].
Proof. vm_compute; reflexivity. Qed.

Example scenario_D_rounds : calculate_ranked_choice_winner dedup [] [bk "A"; bk "B"] = Some [].
Proof. reflexivity. Qed.

(** ** Nomination and ballot storage *)

Lemma length_filter_lt {X} (f : X -> bool) l x :
  In x l -> f x = false -> length (filter f l) < length l.
Proof.
  induction l as [| y l IH]; simpl; [tauto |]; intros [<- | Hx] Hf.
  - rewrite Hf; pose proof (filter_length_le f l); lia.
  - destruct (f y); simpl; pose proof (IH Hx Hf); lia.
Qed.

Lemma dedup_NoDup_eq l : NoDup l -> dedup l = l.
Proof.
  induction l as [| x l IH]; simpl; intro H; [reflexivity |].
  inversion H as [| ? ? Hx Hnd]; subst; rewrite (IH Hnd); f_equal.
  apply forallb_filter_id, forallb_forall; intros y Hy.
  destruct (String.eqb_spec y x); [subst; contradiction | reflexivity].
Qed.

Lemma dedup_length_lt l : ~ NoDup l -> length (dedup l) < length l.
Proof.
  induction l as [| x l IH]; simpl; intro H; [exfalso; apply H; constructor |].
  assert (Hle : forall m, length (filter (fun y => negb (String.eqb y x)) m) <= length m)
    by (intro; apply filter_length_le).
  destruct (in_dec String.string_dec x l) as [Hin | Hnin].
  - assert (Hd : In x (dedup l)) by (apply dedup_In, Hin).
    pose proof (length_filter_lt (fun y => negb (String.eqb y x)) (dedup l) x Hd
                  ltac:(cbn beta; rewrite String.eqb_refl; reflexivity)).
    assert (length (dedup l) <= length l).
    { clear. induction l as [| z l IH]; simpl; [lia |].
      pose proof (filter_length_le (fun y => negb (String.eqb y z)) (dedup l)); lia. }
    lia.
  - assert (Hl : ~ NoDup l) by (intro Hn; apply H; constructor; assumption).
    specialize (IH Hl); specialize (Hle (dedup l)); lia.
Qed.

Lemma dict_get_set_same {V} k (v : V) d : dict_get k (dict_set k v d) = Some v.
Proof.
  induction d as [| [k' v'] d IH]; simpl; [rewrite String.eqb_refl; reflexivity |].
  destruct (String.eqb k' k) eqn:E; simpl; [rewrite String.eqb_refl; reflexivity | rewrite E; exact IH].
Qed.

Lemma dict_get_set_other {V} k k2 (v : V) d :
  k2 <> k -> dict_get k2 (dict_set k v d) = dict_get k2 d.
Proof.
  intro Hne; induction d as [| [k' v'] d IH]; simpl.
  - destruct (String.eqb_spec k k2); [congruence | reflexivity].
  - destruct (String.eqb k' k) eqn:E; simpl.
    + apply String.eqb_eq in E; subst k'.
      destruct (String.eqb_spec k k2); [congruence | reflexivity].
    + destruct (String.eqb k' k2); [reflexivity | exact IH].
Qed.

Lemma dict_set_keys {V} k (v : V) d :
  NoDup (map fst d) -> NoDup (map fst (dict_set k v d)) /\
  (forall x, In x (map fst (dict_set k v d)) <-> x = k \/ In x (map fst d)).
Proof.
  induction d as [| [k' v'] d IH]; simpl; intro Hnd.
  - split; [constructor; [tauto | constructor] | intro x; split; [intros [-> | []]; auto | intros [-> | []]; auto]].
  - inversion Hnd as [| ? ? Hk Hnd']; subst.
    destruct (String.eqb k' k) eqn:E; simpl.
    + apply String.eqb_eq in E; subst k'.
      split; [constructor; assumption | intro x; split; [intros [-> | H]; auto | intros [-> | [-> | H]]; auto]].
    + destruct (IH Hnd') as [H1 H2]; split.
      * constructor; [| exact H1]. rewrite H2; intros [-> | H]; [rewrite String.eqb_refl in E; discriminate | auto].
      * intro x; rewrite H2; split; intros [H | [H | H]]; auto.
Qed.

Lemma dict_set_values {V} k (v : V) d x : In x (map snd (dict_set k v d)) -> x = v \/ In x (map snd d).
Proof.
  induction d as [| [k' v'] d IH]; simpl.
  - intros [-> | []]; auto.
  - destruct (String.eqb k' k); simpl; [intros [-> | H]; auto |].
    intros [-> | H]; [auto | destruct (IH H); auto].
Qed.

Lemma dict_set_In {V} k (v : V) d k2 v2 : In (k2, v2) (dict_set k v d) -> (k2 = k /\ v2 = v) \/ In (k2, v2) d.
Proof.
  induction d as [| [k' v'] d IH]; simpl.
  - intros [H | []]; injection H as <- <-; auto.
  - destruct (String.eqb k' k); simpl; [intros [H | H]; [injection H as <- <-|]; auto |].
    intros [H | H]; [auto | destruct (IH H); auto].
Qed.

Lemma book_options_values books x :
  In x (map snd (book_options books)) -> In x (map id books).
Proof.
  unfold book_options.
  assert (G : forall d, (forall y, In y (map snd d) -> In y (map id books)) ->
            forall bs, incl bs books ->
            forall y, In y (map snd (fold_left (fun d b => dict_set (title b ++ " by " ++ author b)%string (id b) d) bs d))
                      -> In y (map id books)).
  { intros d Hd bs; revert d Hd; induction bs as [| b bs IH]; simpl; intros d Hd Hinc y Hy; [auto |].
    refine (IH _ _ _ y Hy); [| intros z Hz; apply Hinc; right; exact Hz].
    intros z Hz; destruct (dict_set_values _ _ _ _ Hz) as [-> | Hz']; [| auto].
    apply in_map, Hinc; left; reflexivity. }
  apply G; [simpl; tauto | apply incl_refl].
Qed.

Lemma dict_get_In {V} k (d : list (string * V)) v : dict_get k d = Some v -> In v (map snd d).
Proof.
  induction d as [| [k' v'] d IH]; simpl; [discriminate |].
  destruct (String.eqb k' k); [intro H; injection H as <-; auto | auto].
Qed.

Lemma rankings_of_incl options choices r :
  rankings_of options choices = Some r -> incl r (map snd options).
Proof.
  revert r; induction choices as [| c cs IH]; simpl; intros r H.
  - injection H as <-; intros x [].
  - destruct (dict_get c options) as [b |] eqn:E1; [| discriminate].
    destruct (rankings_of options cs) as [bs |] eqn:E2; [| discriminate].
    injection H as <-; intros x [<- | Hx]; [exact (dict_get_In _ _ _ E1) | exact (IH bs eq_refl x Hx)].
Qed.

Lemma NoDup_map_filter {X Y} (f : X -> Y) (p : X -> bool) l :
  NoDup (map f l) -> NoDup (map f (filter p l)).
Proof.
  induction l as [| x l IH]; simpl; intro H; [constructor |].
  inversion H as [| ? ? Hx Hnd]; subst.
  destruct (p x); simpl; [| auto].
  constructor; [| auto]. intro Hin; apply Hx.
  apply in_map_iff in Hin as [y [Hy Hyin]]; apply filter_In in Hyin.
  rewrite <- Hy; apply in_map; tauto.
Qed.

(** ** Extra properties: nomination and ballot storage *)

(** [add_book] rejects a book whose id is nominated, otherwise appends it. *)
Lemma add_book_cases books book :
  (add_book books book = (false, books) /\ In (id book) (map id books)) \/
  (add_book books book = (true, books ++ [book]) /\ ~ In (id book) (map id books)).
Proof.
  unfold add_book.
  destruct (existsb (fun existing_book => String.eqb (id existing_book) (id book)) books) eqn:E.
  - left; split; [reflexivity |].
    apply existsb_exists in E as [b [Hb Heq]]; apply String.eqb_eq in Heq.
    rewrite <- Heq; apply in_map, Hb.
  - right; split; [reflexivity |]. intro Hin; apply in_map_iff in Hin as [b [Hb Hbin]].
    assert (existsb (fun existing_book => String.eqb (id existing_book) (id book)) books = true)
      by (apply existsb_exists; exists b; split; [exact Hbin | rewrite Hb; apply String.eqb_refl]).
    congruence.
Qed.

(** Extra X5: the Submit Vote button refuses a ranking exactly when it
    repeats a book, and otherwise stores it as the voter's ballot, replacing
    any earlier one, while every other voter's ballot is left as it was. *)
Theorem submit_vote_spec votes voter_name rankings :
  (submit_vote votes voter_name rankings = None <-> ~ NoDup rankings) /\
  (forall votes', submit_vote votes voter_name rankings = Some votes' ->
     dict_get voter_name votes' = Some rankings /\
     forall other, other <> voter_name -> dict_get other votes' = dict_get other votes).
Proof.
  unfold submit_vote; split.
  - destruct (Nat.eqb_spec (length rankings) (length (dedup rankings))) as [E | E]; split.
    + discriminate.
    + intro Hn. exfalso; pose proof (dedup_length_lt rankings Hn); lia.
    + intros _ Hn; apply E; rewrite (dedup_NoDup_eq _ Hn); reflexivity.
    + reflexivity.
  - intros votes' H; destruct (Nat.eqb _ _); [injection H as <- | discriminate]; split.
    + apply dict_get_set_same.
    + intros other Hne; apply dict_get_set_other, Hne.
Qed.

(** Extra X6: every action of the Nominate and Vote tabs (adding a book,
    removing a book, submitting or removing a vote) keeps the session state
    well formed: book ids are unique, each voter has one ballot, and a
    ballot ranks only nominated books, each at most once. *)
Theorem app_step_preserves_wf s op s' :
  app_wf s -> app_step s op = Some s' -> app_wf s'.
Proof.
  destruct s as [books votes]; intros [Hb [Hv Hr]]; simpl in *.
  destruct op as [b | i | v choices | v]; simpl; intro Hs.
  - injection Hs as <-; unfold app_wf; simpl.
    destruct (add_book_cases books b) as [[-> _] | [-> Hn]]; simpl.
    + auto.
    + split; [| split; [exact Hv |]].
      * rewrite map_app; apply NoDup_app; [exact Hb | repeat constructor; simpl; tauto |].
        intros x Hx [<- | []]; contradiction.
      * intros voter ranked H; destruct (Hr _ _ H) as [H1 H2]; split; [exact H1 |].
        intros x Hx; rewrite map_app; apply in_or_app; left; apply H2, Hx.
  - injection Hs as <-; unfold app_wf; simpl.
    split; [| split].
    + apply NoDup_map_filter, Hb.
    + rewrite map_map; replace (map _ votes) with (map fst votes)
        by (apply map_ext; intros [x y]; reflexivity). exact Hv.
    + intros voter ranked H; apply in_map_iff in H as [[v r] [Hvr Hin]]; injection Hvr as <- <-.
      destruct (Hr _ _ Hin) as [H1 H2]; split; [apply NoDup_filter, H1 |].
      intros x Hx; apply filter_In in Hx as [Hx Hf].
      apply H2 in Hx; apply in_map_iff in Hx as [bb [Hbb Hbin]]; apply in_map_iff.
      exists bb; split; [exact Hbb |]. apply filter_In; split; [exact Hbin |]; rewrite Hbb; exact Hf.
  - destruct (rankings_of (book_options books) choices) as [r |] eqn:Er; [| discriminate].
    destruct (submit_vote votes v r) as [vs |] eqn:Es; injection Hs as <-; [| exact (conj Hb (conj Hv Hr))].
    unfold app_wf; simpl. unfold submit_vote in Es.
    destruct (Nat.eqb_spec (length r) (length (dedup r))) as [E | E]; [injection Es as <- | discriminate].
    assert (Hnd : NoDup r).
    { destruct (ListDec.NoDup_dec String.string_dec r) as [N | N]; [exact N |].
      pose proof (dedup_length_lt r N); lia. }
    destruct (dict_set_keys v r votes Hv) as [K _]; split; [exact Hb | split; [exact K |]].
    intros voter ranked H; destruct (dict_set_In _ _ _ _ _ H) as [[_ ->] | H'].
    + split; [exact Hnd |]. intros x Hx; apply book_options_values, (rankings_of_incl _ _ _ Er), Hx.
    + apply (Hr _ _ H').
  - injection Hs as <-; unfold app_wf, remove_vote; simpl.
    destruct (existsb _ votes); [| auto].
    split; [exact Hb | split; [apply NoDup_map_filter, Hv |]].
    intros voter ranked H; apply filter_In in H as [H _]; apply (Hr _ _ H).
Qed.

Lemma app_step_preserves_wf_witness :
  app_wf (mkAppState [bk "a"; bk "b"] [("v1"%string, ["a"%string])]) /\
  app_step (mkAppState [bk "a"; bk "b"] [("v1"%string, ["a"%string])])
    (OpSubmitVote "v2"%string ["b by "%string; "a by "%string]) =
    Some (mkAppState [bk "a"; bk "b"] [("v1"%string, ["a"%string]); ("v2"%string, ["b"%string; "a"%string])]) /\
  app_wf (mkAppState [bk "a"; bk "b"] [("v1"%string, ["a"%string]); ("v2"%string, ["b"%string; "a"%string])]).
Proof.
  assert (W : app_wf (mkAppState [bk "a"; bk "b"] [("v1"%string, ["a"%string])])).
  { unfold app_wf; simpl; split; [repeat constructor; simpl; intuition discriminate |].
    split; [repeat constructor; simpl; tauto |].
    intros voter ranked [H | []]; injection H as <- <-; split; [repeat constructor; simpl; tauto |].
    intros x [<- | []]; simpl; auto. }
  split; [exact W | split; [reflexivity |]].
  apply (app_step_preserves_wf _ (OpSubmitVote "v2"%string ["b by "%string; "a by "%string]) _ W); reflexivity.
Defined.

(** ** Round sequences of the tabulation *)

Lemma calculate_cases so votes books rounds :
  set_iter_ok so -> calculate_ranked_choice_winner so votes books = Some rounds ->
  rounds = [] \/
  exists A A' R', NoDup A /\ A <> [] /\
    (forall x, In x A <-> In x (active_insertions votes books)) /\
    loop (length A) votes A [] = Some (A', R') /\ rounds = finish votes A' R'.
Proof.
  intros Hso Hc.
  destruct votes as [| v vs]; [left; rewrite calculate_empty in Hc by auto; congruence |].
  destruct books as [| b bs]; [left; rewrite calculate_empty in Hc by auto; congruence |].
  assert (Hai : active_insertions (v :: vs) (b :: bs) = [] \/ active_insertions (v :: vs) (b :: bs) <> [])
    by (destruct (active_insertions (v :: vs) (b :: bs)); [left | right]; congruence).
  destruct Hai as [Hai | Hai].
  - left; rewrite calculate_empty in Hc by auto; congruence.
  - right. destruct (calculate_run so (v :: vs) (b :: bs) Hso ltac:(discriminate) ltac:(discriminate)
                       Hai) as [Hnd [HA [A' [R' [HL Hc']]]]].
    rewrite Hc in Hc'; injection Hc' as ->.
    exists (so (active_insertions (v :: vs) (b :: bs))), A', R'.
    split; [exact Hnd | split; [exact HA | split; [apply (proj2 (Hso _)) | split; [exact HL | reflexivity]]]].
Qed.

Lemma declared_majority_In t d w : declared_majority t d = Some w -> In w (map fst d).
Proof.
  unfold declared_majority; destruct (find_majority t d) as [w' |] eqn:E; [| discriminate].
  destruct (truthy w'); [intro H; injection H as <- | discriminate].
  destruct (find_majority_Some _ _ _ E) as [c [Hc _]]; apply in_map_iff; exists (w', c); auto.
Qed.

Lemma total_tie_distinct votes A e w rest :
  NoDup A -> A <> [] -> tie_set votes A (count_votes votes A) = Some (e :: w :: rest) -> e <> w.
Proof.
  intros Hnd HA Ht; destruct (tie_set_shape votes A Hnd HA) as [bw [Hbw [_ [_ Hbnd]]]].
  rewrite Ht in Hbw; injection Hbw as <-.
  inversion Hbnd as [| ? ? He _]; subst; intros ->; apply He; left; reflexivity.
Qed.

Lemma tie_set_fewest votes A bw e :
  NoDup A -> tie_set votes A (count_votes votes A) = Some bw -> In e bw ->
  exists c, In (e, c) (count_votes votes A) /\
    forall b c', In (b, c') (count_votes votes A) -> c <= c'.
Proof.
  intros Hnd Ht He; unfold tie_set in Ht.
  destruct (py_min (map snd (count_votes votes A))) as [m |] eqn:Hm; [| discriminate].
  destruct (py_min_spec _ _ Hm) as [_ Hmin].
  assert (HK : forall x, In x (keys_with m (count_votes votes A)) -> In (x, m) (count_votes votes A)).
  { intros x Hx; unfold keys_with in Hx; apply in_map_iff in Hx as [[y c] [Hy Hin]].
    apply filter_In in Hin as [Hin Hc]; apply Nat.eqb_eq in Hc; simpl in Hy; subst; exact Hin. }
  assert (Hfin : forall x, In x (keys_with m (count_votes votes A)) ->
            exists c, In (x, c) (count_votes votes A) /\
              forall b c', In (b, c') (count_votes votes A) -> c <= c').
  { intros x Hx; exists m; split; [apply HK, Hx |].
    intros b c' Hb; apply Hmin; apply in_map_iff; exists (b, c'); auto. }
  injection Ht as <-; apply Hfin.
  destruct (Nat.ltb 1 _) eqn:Hl; [| exact He].
  apply Nat.ltb_lt in Hl.
  rewrite tie_break_eq in He.
  assert (Hne : keys_with m (count_votes votes A) <> [])
    by (intro Hn; rewrite Hn in Hl; simpl in Hl; lia).
  assert (Hkn : NoDup (keys_with m (count_votes votes A)))
    by (rewrite count_votes_eq, keys_with_map; apply NoDup_filter, Hnd).
  destruct (spec_tie_break_shape votes A _ Hne Hkn) as [_ [Hinc _]].
  apply Hinc, He.
Qed.

Lemma nth_error_snoc_cases {X} (R : list X) x j y :
  nth_error (R ++ [x]) j = Some y -> (j < length R /\ nth_error R j = Some y) \/ (j = length R /\ y = x).
Proof.
  intro H; destruct (Nat.lt_ge_cases j (length R)) as [Hl | Hl].
  - left; rewrite nth_error_app1 in H by exact Hl; auto.
  - right; rewrite nth_error_app2 in H by exact Hl.
    destruct (j - length R) as [| k] eqn:E; simpl in H.
    + injection H as <-; split; [lia | reflexivity].
    + destruct k; discriminate.
Qed.

Lemma never_returns_snoc R x :
  never_returns R -> (forall r e, In r R -> eliminated r = Some e -> ~ In e (round_names x)) ->
  never_returns (R ++ [x]).
Proof.
  intros HR Hx i j r1 r2 e Hij H1 H2 He.
  destruct (nth_error_snoc_cases _ _ _ _ H2) as [[Hj H2'] | [Hj ->]].
  - rewrite nth_error_app1 in H1 by lia; exact (HR i j r1 r2 e Hij H1 H2' He).
  - rewrite nth_error_app1 in H1 by lia; apply (Hx r1 e); [eapply nth_error_In; eauto | exact He].
Qed.

Lemma numbered_snoc R x : numbered R -> round_number x = S (length R) -> numbered (R ++ [x]).
Proof.
  intros HR Hx i r H; destruct (nth_error_snoc_cases _ _ _ _ H) as [[_ H'] | [-> ->]]; auto.
Qed.

Lemma count_round_names votes A R e w mw :
  (forall x, In x (opt_list e) -> In x A) -> (forall x, In x (opt_list w) -> In x A) ->
  incl (round_names (count_round votes A R e w mw)) A.
Proof.
  intros He Hw x Hx; unfold round_names in Hx; simpl in Hx; rewrite map_fst_count_votes in Hx.
  apply in_app_or in Hx as [Hx | Hx]; [exact Hx | apply in_app_or in Hx as [Hx | Hx]; auto].
Qed.

Lemma winner_round_names votes R w : round_names (winner_round votes R w) = [w; w].
Proof. reflexivity. Qed.

Lemma loop_names votes fuel A0 A R A' R' :
  incl A A0 -> Forall (fun r => incl (round_names r) A0) R -> NoDup A ->
  loop fuel votes A R = Some (A', R') ->
  Forall (fun r => incl (round_names r) A0) (finish votes A' R').
Proof.
  intros HA HR Hnd HL.
  apply (loop_preserves votes
           (fun A R => incl A A0 /\ Forall (fun r => incl (round_names r) A0) R)
           (fun A R => Forall (fun r => incl (round_names r) A0) (finish votes A R)))
    with (fuel := fuel) (A := A) (R := R); [| | split; assumption | exact Hnd | exact HL].
  - intros A1 R1 [HA1 HR1] _ Hl.
    destruct A1 as [| w [| y A1]]; simpl in Hl |- *; [exact HR1 | | lia].
    apply Forall_app; split; [exact HR1 | constructor; [| constructor]].
    intros x [<- | [<- | []]]; apply HA1; left; reflexivity.
  - intros A1 R1 res [HA1 HR1] Hnd1 Hl Hsh; destruct Hsh.
    + rewrite finish_long by exact Hl.
      apply Forall_app; split; [exact HR1 | constructor; [| constructor]].
      eapply incl_tran; [| exact HA1]. apply count_round_names; simpl; [tauto |].
      intros x [<- | []]; rewrite <- (map_fst_count_votes votes A1); eapply declared_majority_In; eauto.
    + cbn [finish]; rewrite app_two.
      apply Forall_app; split; [apply Forall_app; split; [exact HR1 | constructor; [| constructor]] |].
      * eapply incl_tran; [| exact HA1]. apply count_round_names; simpl; [| tauto].
        intros x [<- | []]; assumption.
      * constructor; [| constructor]. rewrite winner_round_names.
        intros x [<- | [<- | []]]; apply HA1; assumption.
    + split.
      * intros x Hx; apply filter_In in Hx; apply HA1; tauto.
      * apply Forall_app; split; [exact HR1 | constructor; [| constructor]].
        eapply incl_tran; [| exact HA1]. apply count_round_names; simpl; [| tauto].
        intros x [<- | []]; assumption.
Qed.

Lemma not_in_names_incl x r A : incl (round_names r) A -> ~ In x A -> ~ In x (round_names r).
Proof. intros H Hx Hin; apply Hx, H, Hin. Qed.

Lemma loop_never_returns votes fuel A R A' R' :
  never_returns R -> (forall r e, In r R -> eliminated r = Some e -> ~ In e A) -> NoDup A ->
  loop fuel votes A R = Some (A', R') -> never_returns (finish votes A' R').
Proof.
  intros HR HE Hnd HL.
  apply (loop_preserves votes
           (fun A R => never_returns R /\ (forall r e, In r R -> eliminated r = Some e -> ~ In e A))
           (fun A R => never_returns (finish votes A R)))
    with (fuel := fuel) (A := A) (R := R); [| | split; assumption | exact Hnd | exact HL].
  - intros A1 R1 [HR1 HE1] _ Hl.
    destruct A1 as [| w [| y A1]]; simpl in Hl |- *; [exact HR1 | | lia].
    apply never_returns_snoc; [exact HR1 |].
    intros r e Hr He; specialize (HE1 r e Hr He); simpl; intros [<- | [<- | []]]; apply HE1; left; reflexivity.
  - intros A1 R1 res [HR1 HE1] Hnd1 Hl Hsh; destruct Hsh.
    + rewrite finish_long by exact Hl.
      apply never_returns_snoc; [exact HR1 |].
      intros r e He' Hr; apply not_in_names_incl with (A := A1); [| exact (HE1 r e He' Hr)].
      apply count_round_names; simpl; [tauto |].
      intros x [<- | []]; rewrite <- (map_fst_count_votes votes A1); eapply declared_majority_In; eauto.
    + assert (HA1 : A1 <> []) by (intro; subst; simpl in Hl; lia).
      pose proof (total_tie_distinct votes A1 e w rest Hnd1 HA1 H0) as Hew.
      cbn [finish]; rewrite app_two.
      apply never_returns_snoc; [apply never_returns_snoc; [exact HR1 |] |].
      * intros r e' Hr He'; apply not_in_names_incl with (A := A1); [| exact (HE1 r e' Hr He')].
        apply count_round_names; simpl; [intros x [<- | []]; assumption | tauto].
      * intros r e' Hr He'; rewrite winner_round_names.
        apply in_app_or in Hr as [Hr | [<- | []]].
        -- specialize (HE1 r e' Hr He'); intros [<- | [<- | []]]; contradiction.
        -- simpl in He'; injection He' as <-; intros [E | [E | []]]; congruence.
    + split.
      * apply never_returns_snoc; [exact HR1 |].
        intros r e' Hr He'; apply not_in_names_incl with (A := A1); [| exact (HE1 r e' Hr He')].
        apply count_round_names; simpl; [intros x [<- | []]; assumption | tauto].
      * intros r e' Hr He' Hin; apply filter_In in Hin as [Hin Hne].
        apply in_app_or in Hr as [Hr | [<- | []]].
        -- exact (HE1 r e' Hr He' Hin).
        -- simpl in He'; injection He' as <-; rewrite String.eqb_refl in Hne; discriminate.
Qed.

Lemma loop_fewest votes fuel A R A' R' :
  Forall elim_fewest R -> NoDup A ->
  loop fuel votes A R = Some (A', R') -> Forall elim_fewest (finish votes A' R').
Proof.
  intros HR Hnd HL.
  assert (Hcr : forall A1 R1 e rest, NoDup A1 ->
            tie_set votes A1 (count_votes votes A1) = Some (e :: rest) ->
            elim_fewest (count_round votes A1 R1 (Some e) None None)).
  { intros A1 R1 e rest Hnd1 Ht e' He'; simpl in He'; injection He' as <-; simpl.
    apply (tie_set_fewest votes A1 (e :: rest)); [exact Hnd1 | exact Ht | left; reflexivity]. }
  apply (loop_preserves votes (fun A R => Forall elim_fewest R)
           (fun A R => Forall elim_fewest (finish votes A R)))
    with (fuel := fuel) (A := A) (R := R); [| | exact HR | exact Hnd | exact HL].
  - intros A1 R1 HR1 _ Hl.
    destruct A1 as [| w [| y A1]]; simpl in Hl |- *; [exact HR1 | | lia].
    apply Forall_app; split; [exact HR1 | constructor; [intros e He; discriminate | constructor]].
  - intros A1 R1 res HR1 Hnd1 Hl Hsh; destruct Hsh.
    + rewrite finish_long by exact Hl.
      apply Forall_app; split; [exact HR1 | constructor; [intros e He; discriminate | constructor]].
    + cbn [finish]; apply Forall_app; split; [exact HR1 |].
      constructor; [eapply Hcr; eauto | constructor; [intros e' He'; discriminate | constructor]].
    + apply Forall_app; split; [exact HR1 | constructor; [eapply Hcr; eauto | constructor]].
Qed.

Lemma loop_majority votes fuel A R A' R' :
  Forall (majority_ok (length votes)) R -> NoDup A ->
  loop fuel votes A R = Some (A', R') -> Forall (majority_ok (length votes)) (finish votes A' R').
Proof.
  intros HR Hnd HL.
  assert (Hno : forall r, majority_win r = None -> majority_ok (length votes) r)
    by (intros r Hr Ht; congruence).
  apply (loop_preserves votes (fun A R => Forall (majority_ok (length votes)) R)
           (fun A R => Forall (majority_ok (length votes)) (finish votes A R)))
    with (fuel := fuel) (A := A) (R := R); [| | exact HR | exact Hnd | exact HL].
  - intros A1 R1 HR1 _ Hl.
    destruct A1 as [| w [| y A1]]; simpl in Hl |- *; [exact HR1 | | lia].
    apply Forall_app; split; [exact HR1 | constructor; [apply Hno; reflexivity | constructor]].
  - intros A1 R1 res HR1 Hnd1 Hl Hsh; destruct Hsh.
    + rewrite finish_long by exact Hl.
      apply Forall_app; split; [exact HR1 | constructor; [| constructor]].
      intros _; exists w; unfold declared_majority in H.
      destruct (find_majority (length votes) (count_votes votes A1)) as [w' |] eqn:E; [| discriminate].
      destruct (truthy w'); [injection H as <- | discriminate].
      destruct (find_majority_Some _ _ _ E) as [c [Hc Hex]].
      exists c; split; [reflexivity | split; [exact Hc | apply exceeds_iff, Hex]].
    + cbn [finish]; apply Forall_app; split; [exact HR1 |].
      constructor; [apply Hno; reflexivity | constructor; [apply Hno; reflexivity | constructor]].
    + apply Forall_app; split; [exact HR1 | constructor; [apply Hno; reflexivity | constructor]].
Qed.

Lemma loop_numbered votes fuel A R A' R' :
  numbered R -> NoDup A -> loop fuel votes A R = Some (A', R') -> numbered (finish votes A' R').
Proof.
  intros HR Hnd HL.
  apply (loop_preserves votes (fun A R => numbered R) (fun A R => numbered (finish votes A R)))
    with (fuel := fuel) (A := A) (R := R); [| | exact HR | exact Hnd | exact HL].
  - intros A1 R1 HR1 _ Hl.
    destruct A1 as [| w [| y A1]]; simpl in Hl |- *; [exact HR1 | | lia].
    apply numbered_snoc; [exact HR1 | reflexivity].
  - intros A1 R1 res HR1 Hnd1 Hl Hsh; destruct Hsh.
    + rewrite finish_long by exact Hl; apply numbered_snoc; [exact HR1 | reflexivity].
    + cbn [finish]; rewrite app_two.
      apply numbered_snoc; [apply numbered_snoc; [exact HR1 | reflexivity] |].
      simpl; rewrite length_app; simpl; lia.
    + apply numbered_snoc; [exact HR1 | reflexivity].
Qed.

Lemma first_winner_round_last pre last :
  Forall (fun r => winner r = None) pre -> winner last <> None ->
  first_winner_round (pre ++ [last]) = Some last.
Proof.
  intros Hpre Hl; induction Hpre as [| r pre Hr _ IH]; simpl.
  - destruct (winner last); [reflexivity | congruence].
  - rewrite Hr; exact IH.
Qed.

Lemma calculate_names_incl so votes books rounds :
  set_iter_ok so -> calculate_ranked_choice_winner so votes books = Some rounds ->
  Forall (fun r => incl (round_names r) (active_insertions votes books)) rounds.
Proof.
  intros Hso Hc; destruct (calculate_cases so votes books rounds Hso Hc)
    as [-> | [A [A' [R' [Hnd [HA [Hin [HL ->]]]]]]]]; [constructor |].
  apply (loop_names votes (length A) (active_insertions votes books) A [] A' R'); auto.
  intros x Hx; apply Hin, Hx.
Qed.

Lemma active_insertions_In votes books x :
  In x (active_insertions votes books) -> In x (map id books) /\ In x (voted_ids votes).
Proof. unfold active_insertions; rewrite filter_In, mem_In; tauto. Qed.

(** ** Extra properties: the tabulation's rounds *)

(** Extra X7: every book id a round of [calculate_ranked_choice_winner]
    mentions (as a vote-count key, as the eliminated book or as the winner)
    is the id of a nominated book and is ranked on some ballot. *)
Theorem round_names_nominated_and_voted so votes books rounds r x :
  set_iter_ok so -> calculate_ranked_choice_winner so votes books = Some rounds ->
  In r rounds -> In x (round_names r) -> In x (map id books) /\ In x (voted_ids votes).
Proof.
  intros Hso Hc Hr Hx; apply active_insertions_In.
  exact (proj1 (Forall_forall _ _) (calculate_names_incl so votes books rounds Hso Hc) r Hr x Hx).
Qed.

Lemma round_names_nominated_and_voted_witness :
  calculate_ranked_choice_winner dedup cyclic_3 [bk "A"; bk "B"; bk "C"]
    = Some [cyclic_3_round1; cyclic_3_round2] /\
  In "A"%string (map id [bk "A"; bk "B"; bk "C"]) /\ In "A"%string (voted_ids cyclic_3).
Proof.
  assert (Hc : calculate_ranked_choice_winner dedup cyclic_3 [bk "A"; bk "B"; bk "C"]
               = Some [cyclic_3_round1; cyclic_3_round2]) by (vm_compute; reflexivity).
  split; [exact Hc |].
  apply (round_names_nominated_and_voted dedup cyclic_3 [bk "A"; bk "B"; bk "C"]
           [cyclic_3_round1; cyclic_3_round2] cyclic_3_round1 "A"%string dedup_ok Hc).
  - left; reflexivity.
  - vm_compute; left; reflexivity.
Defined.

(** Extra X8: a book eliminated in some round is never mentioned again by a
    later round: it is not counted, not eliminated a second time and not
    declared the winner. *)
Theorem eliminated_never_returns so votes books rounds i j r1 r2 e :
  set_iter_ok so -> calculate_ranked_choice_winner so votes books = Some rounds ->
  i < j -> nth_error rounds i = Some r1 -> nth_error rounds j = Some r2 ->
  eliminated r1 = Some e -> ~ In e (round_names r2).
Proof.
  intros Hso Hc; revert i j r1 r2 e.
  destruct (calculate_cases so votes books rounds Hso Hc)
    as [-> | [A [A' [R' [Hnd [HA [Hin [HL ->]]]]]]]].
  - intros i j r1 r2 e _ H; destruct i; discriminate.
  - apply (loop_never_returns votes (length A) A [] A' R'); [| | exact Hnd | exact HL].
    + intros i j r1 r2 e _ H; destruct i; discriminate.
    + intros r e [].
Qed.

Lemma eliminated_never_returns_witness :
  calculate_ranked_choice_winner dedup cyclic_3 [bk "A"; bk "B"; bk "C"]
    = Some [cyclic_3_round1; cyclic_3_round2] /\
  ~ In "A"%string (round_names cyclic_3_round2).
Proof.
  assert (Hc : calculate_ranked_choice_winner dedup cyclic_3 [bk "A"; bk "B"; bk "C"]
               = Some [cyclic_3_round1; cyclic_3_round2]) by (vm_compute; reflexivity).
  split; [exact Hc |].
  apply (eliminated_never_returns dedup cyclic_3 [bk "A"; bk "B"; bk "C"]
           [cyclic_3_round1; cyclic_3_round2] 0 1 cyclic_3_round1 cyclic_3_round2 "A"%string dedup_ok Hc);
    [lia | reflexivity | reflexivity | reflexivity].
Defined.

(** Extra X9: the book eliminated in a round has the fewest votes among the
    books counted in that round (ties among the fewest are resolved by the
    tie-break, but never in favour of eliminating a book with more votes). *)
Theorem eliminated_has_fewest_votes so votes books rounds r e :
  set_iter_ok so -> calculate_ranked_choice_winner so votes books = Some rounds ->
  In r rounds -> eliminated r = Some e ->
  exists c, In (e, c) (vote_counts r) /\ forall b c', In (b, c') (vote_counts r) -> c <= c'.
Proof.
  intros Hso Hc Hr He.
  destruct (calculate_cases so votes books rounds Hso Hc)
    as [-> | [A [A' [R' [Hnd [HA [Hin [HL ->]]]]]]]]; [destruct Hr |].
  pose proof (loop_fewest votes (length A) A [] A' R' (Forall_nil _) Hnd HL) as HF.
  exact (proj1 (Forall_forall _ _) HF r Hr e He).
Qed.

Lemma eliminated_has_fewest_votes_witness :
  calculate_ranked_choice_winner dedup cyclic_3 [bk "A"; bk "B"; bk "C"]
    = Some [cyclic_3_round1; cyclic_3_round2] /\
  exists c, In ("A"%string, c) (vote_counts cyclic_3_round1) /\
    forall b c', In (b, c') (vote_counts cyclic_3_round1) -> c <= c'.
Proof.
  assert (Hc : calculate_ranked_choice_winner dedup cyclic_3 [bk "A"; bk "B"; bk "C"]
               = Some [cyclic_3_round1; cyclic_3_round2]) by (vm_compute; reflexivity).
  split; [exact Hc |].
  apply (eliminated_has_fewest_votes dedup cyclic_3 [bk "A"; bk "B"; bk "C"]
           [cyclic_3_round1; cyclic_3_round2] cyclic_3_round1 "A"%string dedup_ok Hc);
    [left | ]; reflexivity.
Defined.

(** Extra X10: a round flagged [majority_win] names a winner whose count in
    that round is more than half of the number of ballots. *)
Theorem majority_round_has_majority so votes books rounds r :
  set_iter_ok so -> calculate_ranked_choice_winner so votes books = Some rounds ->
  In r rounds -> majority_win r = Some true ->
  exists w c, winner r = Some w /\ In (w, c) (vote_counts r) /\ length votes < 2 * c.
Proof.
  intros Hso Hc Hr Hm.
  destruct (calculate_cases so votes books rounds Hso Hc)
    as [-> | [A [A' [R' [Hnd [HA [Hin [HL ->]]]]]]]]; [destruct Hr |].
  pose proof (loop_majority votes (length A) A [] A' R' (Forall_nil _) Hnd HL) as HF.
  exact (proj1 (Forall_forall _ _) HF r Hr Hm).
Qed.

Lemma majority_round_has_majority_witness :
  calculate_ranked_choice_winner dedup scenario_B [bk "A"; bk "B"]
    = Some [mkRound 1 [("A"%string, 3); ("B"%string, 2)] 2 None (Some "A"%string) (Some true)] /\
  exists w c, winner (mkRound 1 [("A"%string, 3); ("B"%string, 2)] 2 None (Some "A"%string) (Some true)) = Some w
    /\ In (w, c) [("A"%string, 3); ("B"%string, 2)] /\ length scenario_B < 2 * c.
Proof.
  assert (Hc : calculate_ranked_choice_winner dedup scenario_B [bk "A"; bk "B"]
    = Some [mkRound 1 [("A"%string, 3); ("B"%string, 2)] 2 None (Some "A"%string) (Some true)])
    by (vm_compute; reflexivity).
  split; [exact Hc |].
  apply (majority_round_has_majority dedup scenario_B [bk "A"; bk "B"] _
           (mkRound 1 [("A"%string, 3); ("B"%string, 2)] 2 None (Some "A"%string) (Some true)) dedup_ok Hc);
    [left |]; reflexivity.
Defined.

(** Extra X11: when the tabulation returns rounds, the winner banner of
    [display_voting_results] (the first round carrying a [winner] key) is the
    last round, which carries the winner. *)
Theorem banner_shows_last_round so votes books rounds :
  set_iter_ok so -> calculate_ranked_choice_winner so votes books = Some rounds -> rounds <> [] ->
  exists pre last, rounds = pre ++ [last] /\ winner last <> None /\
                   first_winner_round rounds = Some last.
Proof.
  intros Hso Hc Hne.
  destruct (calculate_cases so votes books rounds Hso Hc)
    as [-> | [A [A' [R' [Hnd [HA [Hin [HL ->]]]]]]]]; [congruence |].
  destruct (loop_winner_last votes (length A) A [] A' R' HA (Forall_nil _) Hnd HL)
    as [pre [last [E [Hw Hpre]]]].
  exists pre, last; split; [exact E | split; [exact Hw |]].
  rewrite E; apply first_winner_round_last; assumption.
Qed.

Lemma banner_shows_last_round_witness :
  calculate_ranked_choice_winner dedup cyclic_3 [bk "A"; bk "B"; bk "C"]
    = Some [cyclic_3_round1; cyclic_3_round2] /\
  exists pre last, [cyclic_3_round1; cyclic_3_round2] = pre ++ [last] /\ winner last <> None /\
                   first_winner_round [cyclic_3_round1; cyclic_3_round2] = Some last.
Proof.
  assert (Hc : calculate_ranked_choice_winner dedup cyclic_3 [bk "A"; bk "B"; bk "C"]
               = Some [cyclic_3_round1; cyclic_3_round2]) by (vm_compute; reflexivity).
  split; [exact Hc |].
  apply (banner_shows_last_round dedup cyclic_3 [bk "A"; bk "B"; bk "C"] _ dedup_ok Hc); discriminate.
Defined.

(** Extra X12: the rounds are numbered 1, 2, 3, ... in list order, so the
    lookup [rounds[elim_round - 1]] of [display_voting_results] finds the
    round whose [round_number] is [elim_round]. *)
Theorem rounds_numbered_in_order so votes books rounds i r :
  set_iter_ok so -> calculate_ranked_choice_winner so votes books = Some rounds ->
  nth_error rounds i = Some r -> round_number r = S i /\ nth_error rounds (round_number r - 1) = Some r.
Proof.
  intros Hso Hc Hi.
  assert (Hn : round_number r = S i).
  { destruct (calculate_cases so votes books rounds Hso Hc)
      as [-> | [A [A' [R' [Hnd [HA [Hin [HL ->]]]]]]]]; [destruct i; discriminate |].
    apply (loop_numbered votes (length A) A [] A' R'); [| exact Hnd | exact HL | exact Hi].
    intros k r' H; destruct k; discriminate. }
  split; [exact Hn | rewrite Hn; simpl; rewrite Nat.sub_0_r; exact Hi].
Qed.

Lemma rounds_numbered_in_order_witness :
  calculate_ranked_choice_winner dedup cyclic_3 [bk "A"; bk "B"; bk "C"]
    = Some [cyclic_3_round1; cyclic_3_round2] /\
  round_number cyclic_3_round2 = 2 /\
  nth_error [cyclic_3_round1; cyclic_3_round2] (round_number cyclic_3_round2 - 1) = Some cyclic_3_round2.
Proof.
  assert (Hc : calculate_ranked_choice_winner dedup cyclic_3 [bk "A"; bk "B"; bk "C"]
               = Some [cyclic_3_round1; cyclic_3_round2]) by (vm_compute; reflexivity).
  split; [exact Hc |].
  apply (rounds_numbered_in_order dedup cyclic_3 [bk "A"; bk "B"; bk "C"] _ 1 _ dedup_ok Hc).
  reflexivity.
Defined.

(** Extra X13: after [remove_book] removes a book, no round of a tabulation
    of the remaining nominations and ballots mentions that book. *)
Theorem removed_book_absent_from_results so books votes book_id books' votes' rounds r :
  set_iter_ok so -> remove_book books votes book_id = (books', votes') ->
  calculate_ranked_choice_winner so votes' books' = Some rounds ->
  In r rounds -> ~ In book_id (round_names r).
Proof.
  intros Hso Hrm Hc Hr Hin.
  pose proof (proj1 (Forall_forall _ _) (calculate_names_incl so votes' books' rounds Hso Hc) r Hr _ Hin)
    as Ha.
  apply active_insertions_In in Ha as [Hb _].
  unfold remove_book in Hrm; injection Hrm as <- _.
  apply in_map_iff in Hb as [b [Hb Hbin]]; apply filter_In in Hbin as [_ Hf].
  rewrite Hb, String.eqb_refl in Hf; discriminate.
Qed.

Lemma removed_book_absent_from_results_witness :
  remove_book [bk "A"; bk "B"; bk "C"] cyclic_3 "A"%string =
    ([bk "B"; bk "C"],
     [("v1", ["B"; "C"]); ("v2", ["B"; "C"]); ("v3", ["C"; "B"])]%string) /\
  calculate_ranked_choice_winner dedup
    [("v1", ["B"; "C"]); ("v2", ["B"; "C"]); ("v3", ["C"; "B"])]%string [bk "B"; bk "C"]
    = Some [mkRound 1 [("B"%string, 2); ("C"%string, 1)] 2 None (Some "B"%string) (Some true)] /\
  ~ In "A"%string (round_names (mkRound 1 [("B"%string, 2); ("C"%string, 1)] 2 None (Some "B"%string) (Some true))).
Proof.
  assert (Hr : remove_book [bk "A"; bk "B"; bk "C"] cyclic_3 "A"%string =
    ([bk "B"; bk "C"], [("v1", ["B"; "C"]); ("v2", ["B"; "C"]); ("v3", ["C"; "B"])]%string))
    by reflexivity.
  assert (Hc : calculate_ranked_choice_winner dedup
    [("v1", ["B"; "C"]); ("v2", ["B"; "C"]); ("v3", ["C"; "B"])]%string [bk "B"; bk "C"]
    = Some [mkRound 1 [("B"%string, 2); ("C"%string, 1)] 2 None (Some "B"%string) (Some true)])
    by (vm_compute; reflexivity).
  split; [exact Hr | split; [exact Hc |]].
  apply (removed_book_absent_from_results dedup _ _ _ _ _ _ _ dedup_ok Hr Hc); left; reflexivity.
Defined.

(** Extra X14: in a well-formed session state (see X6) where some ballot
    ranks at least one book, the Results tab always has rounds to show:
    the tabulation returns a non-empty list. *)
Theorem wf_results_nonempty so s :
  set_iter_ok so -> app_wf s ->
  (exists voter ranked x, In (voter, ranked) (st_votes s) /\ In x ranked) ->
  exists rounds, calculate_ranked_choice_winner so (st_votes s) (st_books s) = Some rounds
                 /\ rounds <> [].
Proof.
  destruct s as [books votes]; simpl; intros Hso [_ [_ Hr]] [voter [ranked [x [Hv Hx]]]].
  assert (Hxb : In x (map id books)) by (apply (proj2 (Hr _ _ Hv)), Hx).
  assert (Hai : active_insertions votes books <> []).
  { intro H; apply (proj1 (active_insertions_nil votes books) H).
    exists voter, ranked, x; auto. }
  destruct (calculate_run so votes books Hso ltac:(destruct votes; [destruct Hv | discriminate])
              ltac:(destruct books; [destruct Hxb | discriminate]) Hai)
    as [Hnd [HA [A' [R' [HL Hc]]]]].
  exists (finish votes A' R'); split; [exact Hc |].
  destruct (loop_winner_last votes _ _ [] A' R' HA (Forall_nil _) Hnd HL) as [pre [last [E _]]].
  rewrite E; intro H; destruct pre; discriminate.
Qed.

Lemma wf_results_nonempty_witness :
  app_wf (mkAppState [bk "a"; bk "b"] [("v1"%string, ["a"%string])]) /\
  exists rounds, calculate_ranked_choice_winner dedup [("v1"%string, ["a"%string])] [bk "a"; bk "b"]
                   = Some rounds /\ rounds <> [].
Proof.
  assert (W : app_wf (mkAppState [bk "a"; bk "b"] [("v1"%string, ["a"%string])])).
  { unfold app_wf; simpl; split; [repeat constructor; simpl; intuition discriminate |].
    split; [repeat constructor; simpl; tauto |].
    intros voter ranked [H | []]; injection H as <- <-; split; [repeat constructor; simpl; tauto |].
    intros x [<- | []]; simpl; auto. }
  split; [exact W |].
  apply (wf_results_nonempty dedup (mkAppState [bk "a"; bk "b"] [("v1"%string, ["a"%string])]) dedup_ok W).
  exists "v1"%string, ["a"%string], "a"%string; split; left; reflexivity.
Defined.

Lemma submit_vote_spec_witness :
  submit_vote cyclic_3 "v4"%string ["A"; "A"]%string = None /\
  dict_get "v4"%string (dict_set "v4"%string ["B"; "A"]%string cyclic_3) = Some ["B"; "A"]%string /\
  dict_get "v1"%string (dict_set "v4"%string ["B"; "A"]%string cyclic_3) = dict_get "v1"%string cyclic_3.
Proof.
  destruct (submit_vote_spec cyclic_3 "v4"%string ["A"; "A"]%string) as [[_ H1] _].
  destruct (submit_vote_spec cyclic_3 "v4"%string ["B"; "A"]%string) as [_ H2].
  split; [apply H1; intro Hn; inversion Hn as [| ? ? Hx _]; apply Hx; left; reflexivity |].
  destruct (H2 (dict_set "v4"%string ["B"; "A"]%string cyclic_3) eq_refl) as [H3 H4].
  split; [exact H3 | apply H4; discriminate].
Defined.
